(** * PhilanChain: the Crowdfunding contract (src/PhilanChain.sol)

    A shallow embedding of the Solidity contract [Crowdfunding] and the
    proofs of its ledger, milestone and voting properties.

    Conventions of the embedding:
    - [uint256] and [address] values are naturals ([N]); Solidity 0.8
      arithmetic is checked, so [+], [-] and [*] on [uint256] revert with
      [Panic] when the result leaves [0 .. 2^256-1];
    - a [mapping] is a finite map read with a default ([0], [false]);
    - a contract function is a function from the call environment and the
      storage to [Ok] of the new storage or [Revert] of an error; a
      transaction keeps the old storage when the body reverts;
    - [owner.call{value: v}("")] succeeds when the contract holds [v] and
      the recipient accepts the payment. The functions of the first part
      are single calls, whose recipient only accepts or refuses
      ([callee_accepts]). [Module Reentrant] has the paying functions with
      a recipient whose code calls back into the contract while it is paid;
      a call with callbacks is a sequence of single calls at one timestamp
      ([reentrant_transact_evolves]), so reachable states are the same;
    - events are not part of the storage and are left out. *)

From Stdlib Require Import NArith Lia String.
From stdpp Require Import base numbers option list gmap fin_maps strings.

Local Open Scope N_scope.

(** ** Values *)

Abbreviation uint256 := N (only parsing).
Abbreviation address := N (only parsing).

Definition MAX_UINT256 : N := 2 ^ 256 - 1.

(** [1 days] in seconds. *)
Definition days : N := 86400.

(** ** Errors and results *)

Inductive Error : Set :=
| UseDonateFunction
| NotOwner
| FundraisingClosed
| InvalidDonationAmount
| NoFundsToWithdraw
| TransferFailed
| RefundNotAvailable
| NoDonationToRefund
| WithdrawalNotAvailable
| InvalidMilestone
| InsufficientContractBalance
| VotingNotActive
| VotingPeriodNotEnded
| AlreadyVoted
| OnlyDonorsCanVote
| MilestoneNotApproved
| FundsAlreadyReleased
| InvalidMilestoneAmount
| EmptyDescription
| VotingStillActive
| RequireFailed (reason : string)
| NonPayable
| Panic.

Inductive Result (A : Type) : Type :=
| Ok (a : A)
| Revert (e : Error).

Arguments Ok {A} a.
Arguments Revert {A} e.

Definition bind {A B} (r : Result A) (k : A → Result B) : Result B :=
  match r with
  | Ok a => k a
  | Revert e => Revert e
  end.

Notation "'let!' x ':=' r 'in' k" := (bind r (fun x => k))
  (at level 10, x name, r at level 100, k at level 200,
   format "'[v' 'let!'  x  ':='  r  'in'  '/' k ']'").

(** [if (c) revert e();] *)
Definition revert_if (c : bool) (e : Error) : Result unit :=
  if c then Revert e else Ok tt.

Notation "'check!' c 'else' e 'in' k" := (bind (revert_if c e) (fun _ => k))
  (at level 10, c at level 100, e at level 100, k at level 200,
   format "'[v' 'check!'  c  'else'  e  'in'  '/' k ']'").

(** Checked arithmetic of Solidity 0.8. *)
Definition checked_add (a b : uint256) : Result uint256 :=
  if a + b <=? MAX_UINT256 then Ok (a + b) else Revert Panic.

Definition checked_sub (a b : uint256) : Result uint256 :=
  if b <=? a then Ok (a - b) else Revert Panic.

Definition checked_mul (a b : uint256) : Result uint256 :=
  if a * b <=? MAX_UINT256 then Ok (a * b) else Revert Panic.

(** ** Storage *)

Record Milestone : Type := mkMilestone {
  description : string;
  fundAmount : uint256;
  voteDeadline : uint256;
  yesVotes : uint256;
  noVotes : uint256;
  approved : bool;
  fundsReleased : bool;
  votingActive : bool
}.

Record CampaignUpdate : Type := mkCampaignUpdate {
  title : string;
  contentHash : string;
  timestamp : uint256
}.

(** The storage of the contract, its immutables and the ether it holds
    ([address(this).balance]). *)
Record State : Type := mkState {
  owner : address;
  fundraisingGoal : uint256;
  totalDonations : uint256;
  deadline : uint256;
  campaignActive : bool;
  donations : gmap N N;
  milestones : list Milestone;
  updates : list CampaignUpdate;
  hasVoted : gmap (N * N) bool;
  balance : N
}.

(** What a call sees of its transaction and block. *)
Record Env : Type := mkEnv {
  msg_sender : address;
  msg_value : uint256;
  block_timestamp : uint256;
  callee_accepts : bool
}.

(** [donations[a]] *)
Definition donationOf (s : State) (a : address) : uint256 :=
  default 0 (donations s !! a).

(** [hasVoted[i][a]] *)
Definition votedOn (s : State) (i : uint256) (a : address) : bool :=
  default false (hasVoted s !! (i, a)).

(** Field updates. *)
Definition set_ledger (s : State) (d : gmap N N) (t : uint256) : State :=
  mkState (owner s) (fundraisingGoal s) t (deadline s) (campaignActive s)
          d (milestones s) (updates s) (hasVoted s) (balance s).

Definition set_milestones (s : State) (ms : list Milestone) : State :=
  mkState (owner s) (fundraisingGoal s) (totalDonations s) (deadline s)
          (campaignActive s) (donations s) ms (updates s) (hasVoted s)
          (balance s).

Definition set_updates (s : State) (us : list CampaignUpdate) : State :=
  mkState (owner s) (fundraisingGoal s) (totalDonations s) (deadline s)
          (campaignActive s) (donations s) (milestones s) us (hasVoted s)
          (balance s).

Definition set_hasVoted (s : State) (hv : gmap (N * N) bool) : State :=
  mkState (owner s) (fundraisingGoal s) (totalDonations s) (deadline s)
          (campaignActive s) (donations s) (milestones s) (updates s) hv
          (balance s).

Definition set_campaignActive (s : State) (b : bool) : State :=
  mkState (owner s) (fundraisingGoal s) (totalDonations s) (deadline s)
          b (donations s) (milestones s) (updates s) (hasVoted s)
          (balance s).

Definition set_balance (s : State) (b : N) : State :=
  mkState (owner s) (fundraisingGoal s) (totalDonations s) (deadline s)
          (campaignActive s) (donations s) (milestones s) (updates s)
          (hasVoted s) b.

Definition set_yesVotes (m : Milestone) (v : uint256) : Milestone :=
  mkMilestone (description m) (fundAmount m) (voteDeadline m) v (noVotes m)
              (approved m) (fundsReleased m) (votingActive m).

Definition set_noVotes (m : Milestone) (v : uint256) : Milestone :=
  mkMilestone (description m) (fundAmount m) (voteDeadline m) (yesVotes m) v
              (approved m) (fundsReleased m) (votingActive m).

Definition set_approved (m : Milestone) (b : bool) : Milestone :=
  mkMilestone (description m) (fundAmount m) (voteDeadline m) (yesVotes m)
              (noVotes m) b (fundsReleased m) (votingActive m).

Definition set_fundsReleased (m : Milestone) (b : bool) : Milestone :=
  mkMilestone (description m) (fundAmount m) (voteDeadline m) (yesVotes m)
              (noVotes m) (approved m) b (votingActive m).

Definition set_votingActive (m : Milestone) (b : bool) : Milestone :=
  mkMilestone (description m) (fundAmount m) (voteDeadline m) (yesVotes m)
              (noVotes m) (approved m) (fundsReleased m) b.

(** [milestones[i]] after the range check of the callers. *)
Definition milestoneAt (s : State) (i : uint256) : Result Milestone :=
  match milestones s !! N.to_nat i with
  | Some m => Ok m
  | None => Revert InvalidMilestone
  end.

(** Writing through the storage pointer [milestones[i]]. *)
Definition store_milestone (s : State) (i : uint256) (m : Milestone) : State :=
  set_milestones s (<[N.to_nat i := m]> (milestones s)).

(** [to.call{value: v}("")]: the ether leaves the contract when it is there
    and the recipient takes it. *)
Definition call_value (e : Env) (s : State) (v : uint256) : option State :=
  if callee_accepts e && (v <=? balance s)
  then Some (set_balance s (balance s - v))
  else None.

(** The ether of a payable call arrives before the body runs. *)
Definition receive_value (e : Env) (s : State) : State :=
  set_balance s (balance s + msg_value e).

(** ** The contract *)

(** [modifier onlyOwner] *)
Definition onlyOwner (e : Env) (s : State) : Result unit :=
  revert_if (negb (msg_sender e =? owner s)) NotOwner.

(** [modifier onlyDonor] *)
Definition onlyDonor (e : Env) (s : State) : Result unit :=
  revert_if (donationOf s (msg_sender e) =? 0) OnlyDonorsCanVote.

(** [constructor(uint256 _goal, uint256 _durationDays)] *)
Definition constructor (e : Env) (_goal _durationDays : uint256) : Result State :=
  check! negb (0 <? _goal) else RequireFailed "Goal must be > 0" in
  check! negb (0 <? _durationDays) else RequireFailed "Duration must be > 0" in
  let! span := checked_mul _durationDays days in
  let! end_ := checked_add (block_timestamp e) span in
  check! negb (block_timestamp e <? end_) else RequireFailed "Invalid deadline" in
  Ok (mkState (msg_sender e) _goal 0 end_ true ∅ [] [] ∅ 0).

(** [receive() external payable] *)
Definition receive (e : Env) (s : State) : Result State :=
  Revert UseDonateFunction.

(** [function donate() external payable] *)
Definition donate (e : Env) (s : State) : Result State :=
  check! deadline s <=? block_timestamp e else FundraisingClosed in
  check! msg_value e =? 0 else InvalidDonationAmount in
  let! d := checked_add (donationOf s (msg_sender e)) (msg_value e) in
  let! t := checked_add (totalDonations s) (msg_value e) in
  Ok (set_ledger s (<[msg_sender e := d]> (donations s)) t).

(** [function createMilestone(string, uint256, uint256) external onlyOwner] *)
Definition createMilestone (_description : string)
    (_fundAmount _votingDurationDays : uint256) (e : Env) (s : State)
    : Result State :=
  let! _u := onlyOwner e s in
  check! (String.length _description =? 0)%nat else EmptyDescription in
  check! (_fundAmount =? 0) || (balance s <? _fundAmount)
    else InvalidMilestoneAmount in
  check! _votingDurationDays =? 0 else InvalidMilestone in
  let! span := checked_mul _votingDurationDays days in
  let! vd := checked_add (block_timestamp e) span in
  Ok (set_milestones s
        (milestones s ++
           [mkMilestone _description _fundAmount vd 0 0 false false true])).

(** [function voteOnMilestone(uint256, bool) external onlyDonor] *)
Definition voteOnMilestone (_milestoneId : uint256) (_approve : bool)
    (e : Env) (s : State) : Result State :=
  let! _u := onlyDonor e s in
  let! milestone := milestoneAt s _milestoneId in
  check! negb (votingActive milestone) else VotingNotActive in
  check! voteDeadline milestone <? block_timestamp e else VotingNotActive in
  check! votedOn s _milestoneId (msg_sender e) else AlreadyVoted in
  let voteWeight := donationOf s (msg_sender e) in
  let s1 := set_hasVoted s (<[(_milestoneId, msg_sender e) := true]> (hasVoted s)) in
  if _approve then
    let! y := checked_add (yesVotes milestone) voteWeight in
    Ok (store_milestone s1 _milestoneId (set_yesVotes milestone y))
  else
    let! n := checked_add (noVotes milestone) voteWeight in
    Ok (store_milestone s1 _milestoneId (set_noVotes milestone n)).

(** [function finalizeMilestoneVote(uint256) external] *)
Definition finalizeMilestoneVote (_milestoneId : uint256) (e : Env) (s : State)
    : Result State :=
  let! milestone := milestoneAt s _milestoneId in
  check! negb (votingActive milestone) else VotingNotActive in
  check! block_timestamp e <=? voteDeadline milestone else VotingStillActive in
  let m1 := set_votingActive milestone false in
  let! totalVotes := checked_add (yesVotes m1) (noVotes m1) in
  if (0 <? totalVotes) && (noVotes m1 <? yesVotes m1)
  then Ok (store_milestone s _milestoneId (set_approved m1 true))
  else Ok (store_milestone s _milestoneId m1).

(** [function releaseMilestoneFunds(uint256) external onlyOwner] *)
Definition releaseMilestoneFunds (_milestoneId : uint256) (e : Env) (s : State)
    : Result State :=
  let! _u := onlyOwner e s in
  let! milestone := milestoneAt s _milestoneId in
  check! negb (approved milestone) else MilestoneNotApproved in
  check! fundsReleased milestone else FundsAlreadyReleased in
  check! balance s <? fundAmount milestone else InsufficientContractBalance in
  let m1 := set_fundsReleased milestone true in
  let s1 := store_milestone s _milestoneId m1 in
  match call_value e s1 (fundAmount m1) with
  | Some s2 => Ok s2
  | None => Revert TransferFailed
  end.

(** [function postUpdate(string, string) external onlyOwner] *)
Definition postUpdate (_title _contentHash : string) (e : Env) (s : State)
    : Result State :=
  let! _u := onlyOwner e s in
  check! (String.length _title =? 0)%nat else EmptyDescription in
  Ok (set_updates s
        (updates s ++ [mkCampaignUpdate _title _contentHash (block_timestamp e)])).

(** [function withdraw() external onlyOwner] *)
Definition withdraw (e : Env) (s : State) : Result State :=
  let! _u := onlyOwner e s in
  check! negb ((deadline s <=? block_timestamp e)
               || (fundraisingGoal s <=? totalDonations s))
    else WithdrawalNotAvailable in
  let balance_ := balance s in
  check! balance_ =? 0 else NoFundsToWithdraw in
  match call_value e s balance_ with
  | Some s1 => Ok s1
  | None => Revert TransferFailed
  end.

(** [function refund() external] *)
Definition refund (e : Env) (s : State) : Result State :=
  check! negb ((deadline s <=? block_timestamp e)
               && (totalDonations s <? fundraisingGoal s))
    else RefundNotAvailable in
  let amount := donationOf s (msg_sender e) in
  check! amount =? 0 else NoDonationToRefund in
  let! t := checked_sub (totalDonations s) amount in
  let s1 := set_ledger s (<[msg_sender e := 0]> (donations s)) t in
  match call_value e s1 amount with
  | Some s2 => Ok s2
  | None => Revert TransferFailed
  end.

(** [function endCampaign() external onlyOwner] *)
Definition endCampaign (e : Env) (s : State) : Result State :=
  let! _u := onlyOwner e s in
  Ok (set_campaignActive s false).

(** *** View function *)

Definition progressPercentage (s : State) : Result uint256 :=
  if fundraisingGoal s =? 0 then Ok 0
  else
    let! p := checked_mul (totalDonations s) 100 in
    Ok (p / fundraisingGoal s).

(** ** Transactions *)

Inductive Call : Type :=
| CReceive
| CDonate
| CCreateMilestone (_description : string) (_fundAmount _votingDurationDays : uint256)
| CVoteOnMilestone (_milestoneId : uint256) (_approve : bool)
| CFinalizeMilestoneVote (_milestoneId : uint256)
| CReleaseMilestoneFunds (_milestoneId : uint256)
| CPostUpdate (_title _contentHash : string)
| CWithdraw
| CRefund
| CEndCampaign.

(** A function that is not [payable] reverts when ether comes with the call. *)
Definition nonpayable (body : Env → State → Result State) (e : Env) (s : State)
    : Result State :=
  check! negb (msg_value e =? 0) else NonPayable in
  body e s.

Definition payable (body : Env → State → Result State) (e : Env) (s : State)
    : Result State :=
  body e (receive_value e s).

Definition execute (c : Call) : Env → State → Result State :=
  match c with
  | CReceive => payable receive
  | CDonate => payable donate
  | CCreateMilestone d a n => nonpayable (createMilestone d a n)
  | CVoteOnMilestone i b => nonpayable (voteOnMilestone i b)
  | CFinalizeMilestoneVote i => nonpayable (finalizeMilestoneVote i)
  | CReleaseMilestoneFunds i => nonpayable (releaseMilestoneFunds i)
  | CPostUpdate t c => nonpayable (postUpdate t c)
  | CWithdraw => nonpayable withdraw
  | CRefund => nonpayable refund
  | CEndCampaign => nonpayable endCampaign
  end.

(** A transaction commits the storage of a call that returns and keeps the
    old storage of one that reverts. *)
Definition transact (e : Env) (c : Call) (s : State) : State :=
  match execute c e s with
  | Ok s' => s'
  | Revert _ => s
  end.

(** The contract over time: [evolves t s t' s'] when transactions in blocks
    of non-decreasing timestamps lead from storage [s], last touched at time
    [t], to [s'], last touched at [t']. *)
Inductive evolves (t : N) (s : State) : N → State → Prop :=
| evolves_here : evolves t s t s
| evolves_call t' s' e c :
    evolves t s t' s' →
    t' <= block_timestamp e →
    evolves t s (block_timestamp e) (transact e c s').

(** The storage a deployment and any later transactions can produce. *)
Definition reachable (t : N) (s : State) : Prop :=
  ∃ e0 goal ndays s0,
    constructor e0 goal ndays = Ok s0 ∧ evolves (block_timestamp e0) s0 t s.

(** ** Sums over a ledger *)

(** The sum of [f a v] over the entries [a ↦ v] of a mapping. *)
Definition msum (f : N → N → N) (m : gmap N N) : N :=
  map_fold (λ a v acc, f a v + acc) 0 m.

(** [sum(donations)], the total of all donor balances. *)
Definition sum_donations (s : State) : N :=
  msum (λ _ v, v) (donations s).

(** The balances of the donors who have not voted on milestone [i]: the
    weight that can still be cast on it. *)
Definition pending_weight (s : State) (i : uint256) : N :=
  msum (λ a v, if votedOn s i a then 0 else v) (donations s).

(** ** The milestone life cycle *)

(** The three states of a milestone, read off its flags. *)
Inductive Phase : Set := Voting | Approved | Rejected.

Definition phase (m : Milestone) : Phase :=
  if votingActive m then Voting
  else if approved m then Approved else Rejected.

(** ** Invariants *)

(** The ledger adds up and its total is a [uint256]. *)
Definition ledger_ok (s : State) : Prop :=
  sum_donations s = totalDonations s ∧ totalDonations s <= MAX_UINT256.

(** Flags of a milestone at time [t]: funds are released only after
    approval, approval comes with the end of voting, and voting ends only
    after the vote deadline. *)
Definition milestone_ok (t : N) (m : Milestone) : Prop :=
  (fundsReleased m = true → approved m = true) ∧
  (approved m = true → votingActive m = false) ∧
  (votingActive m = false → voteDeadline m < t).

Definition milestones_ok (t : N) (s : State) : Prop :=
  ∀ i m, milestones s !! i = Some m → milestone_ok t m.

(** Votes are recorded for existing milestones only. *)
Definition votes_ok (s : State) : Prop :=
  ∀ i a, votedOn s i a = true → (N.to_nat i < length (milestones s))%nat.

(** The weight cast on a milestone and the weight that can still be cast on
    it fit in a [uint256]; while donations are open they are covered by the
    total of the ledger. *)
Definition tally_ok (t : N) (s : State) : Prop :=
  ∀ i m, milestones s !! N.to_nat i = Some m →
    yesVotes m + noVotes m + pending_weight s i <= MAX_UINT256 ∧
    (t < deadline s →
     yesVotes m + noVotes m + pending_weight s i <= totalDonations s).

Record invariant (t : N) (s : State) : Prop := mkInvariant {
  inv_ledger : ledger_ok s;
  inv_milestones : milestones_ok t s;
  inv_votes : votes_ok s;
  inv_tally : tally_ok t s
}.

(** How a milestone may differ between an earlier and a later storage: its
    text, amount and vote deadline are fixed, its flags only move forward,
    and once voting is closed its outcome and tallies are final. *)
Definition milestone_le (m m' : Milestone) : Prop :=
  description m' = description m ∧
  fundAmount m' = fundAmount m ∧
  voteDeadline m' = voteDeadline m ∧
  (fundsReleased m = true → fundsReleased m' = true) ∧
  (approved m = true → approved m' = true) ∧
  (votingActive m = false →
   votingActive m' = false ∧ approved m' = approved m ∧
   yesVotes m' = yesVotes m ∧ noVotes m' = noVotes m).

(** ** Scenarios

    A campaign with goal 10 that runs for one day, deployed at time 1000 by
    the owner (address 1), with donors X (address 2) and Y (address 3). *)

Definition the_owner : address := 1.
Definition donor_X : address := 2.
Definition donor_Y : address := 3.

Definition at_time (who : address) (value now : uint256) : Env :=
  mkEnv who value now true.

Definition deployed : State :=
  mkState the_owner 10 0 87400 true ∅ [] [] ∅ 0.

(** X gives 6 and Y gives 4 before the deadline. *)
Definition funded : State :=
  transact (at_time donor_Y 4 1200) CDonate
    (transact (at_time donor_X 6 1100) CDonate deployed).

(** The owner asks for 3 with two days of voting; X votes yes, Y votes no. *)
Definition proposed : State :=
  transact (at_time the_owner 0 2000) (CCreateMilestone "well" 3 2) funded.

Definition voted : State :=
  transact (at_time donor_Y 0 3100) (CVoteOnMilestone 0 false)
    (transact (at_time donor_X 0 3000) (CVoteOnMilestone 0 true) proposed).

(** After the vote deadline anyone closes the vote; 6 > 4 approves. *)
Definition finalized : State :=
  transact (at_time donor_Y 0 174801) (CFinalizeMilestoneVote 0) voted.

Definition released : State :=
  transact (at_time the_owner 0 174900) (CReleaseMilestoneFunds 0) finalized.

(** Scenario A: X and Y give 4 each, so the goal of 10 is missed. *)
Definition underfunded : State :=
  transact (at_time donor_Y 4 1200) CDonate
    (transact (at_time donor_X 4 1100) CDonate deployed).

(** A single donation of the largest [uint256]. *)
Definition overfull : State :=
  transact (at_time donor_X MAX_UINT256 1100) CDonate deployed.

(** An owner that does not accept payments, say a contract without a
    payable [receive]. *)
Definition refusing (who : address) (now : uint256) : Env :=
  mkEnv who 0 now false.

(** ** The other view functions *)

(** [function timeRemaining() external view returns (uint256)] *)
Definition timeRemaining (e : Env) (s : State) : Result uint256 :=
  if block_timestamp e <? deadline s
  then checked_sub (deadline s) (block_timestamp e)
  else Ok 0.

(** [function getMilestoneCount() external view returns (uint256)] *)
Definition getMilestoneCount (s : State) : uint256 :=
  N.of_nat (length (milestones s)).

(** [function getUpdateCount() external view returns (uint256)] *)
Definition getUpdateCount (s : State) : uint256 :=
  N.of_nat (length (updates s)).

(** [function getMilestone(uint256) external view], the eight fields in the
    order the function returns them. *)
Definition getMilestone (_milestoneId : uint256) (s : State)
    : Result (string * uint256 * uint256 * uint256 * uint256 * bool * bool * bool) :=
  let! m := milestoneAt s _milestoneId in
  Ok (description m, fundAmount m, voteDeadline m, yesVotes m, noVotes m,
      approved m, fundsReleased m, votingActive m).

(** [function getUpdate(uint256) external view] *)
Definition getUpdate (_updateId : uint256) (s : State)
    : Result (string * string * uint256) :=
  match updates s !! N.to_nat _updateId with
  | Some u => Ok (title u, contentHash u, timestamp u)
  | None => Revert (RequireFailed "Invalid update ID")
  end.

(** [function hasUserVoted(uint256, address) external view returns (bool)] *)
Definition hasUserVoted (_milestoneId : uint256) (_voter : address) (s : State)
    : bool :=
  votedOn s _milestoneId _voter.

(** [function getMilestoneVotePercentage(uint256) external view] *)
Definition getMilestoneVotePercentage (_milestoneId : uint256) (s : State)
    : Result uint256 :=
  let! m := milestoneAt s _milestoneId in
  let! total := checked_add (yesVotes m) (noVotes m) in
  if total =? 0 then Ok 0
  else
    let! scaled := checked_mul (yesVotes m) 100 in
    Ok (scaled / total).


(** ** Payments that call back

    [to.call{value: v}("")] forwards all gas and the contract has no
    reentrancy guard, so the code at the recipient's address can call the
    contract again before the payment returns. A [Reaction] is what that
    code does with the payment: it refuses it ([Reject], the call returns
    false and everything the code did is undone), it takes it ([Accept]), or
    it first causes a call [c] of the contract, from address [who] with
    [value] attached, and then goes on with [rest]. A payment made by that
    call is answered by [inner]. A call that reverts is caught by the code
    that made it and leaves the storage as it was. *)
Inductive Reaction : Type :=
| Reject
| Accept
| Callback (who : address) (value : uint256) (inner : Reaction) (c : Call)
    (rest : Reaction).

Module Reentrant.

Section paying.

(** [send s v] is the storage in which [to.call{value: v}("")], made in
    storage [s], returns true, and [None] when it returns false. *)
Variable send : State → uint256 → option State.

(** [function releaseMilestoneFunds(uint256) external onlyOwner] *)
Definition releaseMilestoneFunds (_milestoneId : uint256) (e : Env) (s : State)
    : Result State :=
  let! _u := onlyOwner e s in
  let! milestone := milestoneAt s _milestoneId in
  check! negb (approved milestone) else MilestoneNotApproved in
  check! fundsReleased milestone else FundsAlreadyReleased in
  check! balance s <? fundAmount milestone else InsufficientContractBalance in
  let m1 := set_fundsReleased milestone true in
  let s1 := store_milestone s _milestoneId m1 in
  match send s1 (fundAmount m1) with
  | Some s2 => Ok s2
  | None => Revert TransferFailed
  end.

(** [function withdraw() external onlyOwner] *)
Definition withdraw (e : Env) (s : State) : Result State :=
  let! _u := onlyOwner e s in
  check! negb ((deadline s <=? block_timestamp e)
               || (fundraisingGoal s <=? totalDonations s))
    else WithdrawalNotAvailable in
  let balance_ := balance s in
  check! balance_ =? 0 else NoFundsToWithdraw in
  match send s balance_ with
  | Some s1 => Ok s1
  | None => Revert TransferFailed
  end.

(** [function refund() external] *)
Definition refund (e : Env) (s : State) : Result State :=
  check! negb ((deadline s <=? block_timestamp e)
               && (totalDonations s <? fundraisingGoal s))
    else RefundNotAvailable in
  let amount := donationOf s (msg_sender e) in
  check! amount =? 0 else NoDonationToRefund in
  let! t := checked_sub (totalDonations s) amount in
  let s1 := set_ledger s (<[msg_sender e := 0]> (donations s)) t in
  match send s1 amount with
  | Some s2 => Ok s2
  | None => Revert TransferFailed
  end.

(** The functions that pay nobody are the ones above. *)
Definition execute (c : Call) : Env → State → Result State :=
  match c with
  | CReceive => payable receive
  | CDonate => payable donate
  | CCreateMilestone d a n => nonpayable (createMilestone d a n)
  | CVoteOnMilestone i b => nonpayable (voteOnMilestone i b)
  | CFinalizeMilestoneVote i => nonpayable (finalizeMilestoneVote i)
  | CReleaseMilestoneFunds i => nonpayable (releaseMilestoneFunds i)
  | CPostUpdate t c => nonpayable (postUpdate t c)
  | CWithdraw => nonpayable withdraw
  | CRefund => nonpayable refund
  | CEndCampaign => nonpayable endCampaign
  end.

Definition transact (e : Env) (c : Call) (s : State) : State :=
  match execute c e s with
  | Ok s' => s'
  | Revert _ => s
  end.

End paying.

(** The storage after the recipient's code has run in storage [s], at block
    time [now]; [None] when it refuses the payment. The calls it causes run
    like any other call: they commit when they return, and their own
    payments are answered in turn. *)
Fixpoint react (now : uint256) (r : Reaction) (s : State) : option State :=
  match r with
  | Reject => None
  | Accept => Some s
  | Callback who value inner c rest =>
      react now rest
        (transact
           (λ s1 v,
              if v <=? balance s1
              then react now inner (set_balance s1 (balance s1 - v))
              else None)
           (mkEnv who value now true) c s)
  end.

(** [to.call{value: v}("")] to a recipient whose code is [r]: the call
    fails when the contract holds less than [v]; otherwise the ether leaves
    the contract and the recipient's code runs. *)
Definition call_value (now : uint256) (r : Reaction) (s : State) (v : uint256)
    : option State :=
  if v <=? balance s
  then react now r (set_balance s (balance s - v))
  else None.

End Reentrant.

(** The calls that pay somebody. *)
Definition pays (c : Call) : bool :=
  match c with
  | CReleaseMilestoneFunds _ | CWithdraw | CRefund => true
  | _ => false
  end.

(** The same call with a recipient that takes the payment and does nothing
    else. *)
Definition accepting (e : Env) : Env :=
  mkEnv (msg_sender e) (msg_value e) (block_timestamp e) true.

(** The recipient of the first part, which only accepts or refuses. *)
Definition answer (e : Env) : Reaction :=
  if callee_accepts e then Accept else Reject.

(** ** More scenarios *)

(** After the missed deadline the owner withdraws the 8 the contract
    holds. *)
Definition drained : State :=
  transact (at_time the_owner 0 90000) CWithdraw underfunded.

(** A donor contract whose [receive] has the contract of donor Y ask for
    Y's refund as well. *)
Definition refunding_too : Reaction :=
  Callback donor_Y 0 Accept CRefund Accept.

(** An owner contract whose [receive] donates 1 back. *)
Definition donating_back : Reaction :=
  Callback the_owner 1 Accept CDonate Accept.

(** * Proofs *)

(** ** Sums over a ledger *)

Section msum_facts.
Variable f : N → N → N.

Lemma msum_empty : msum f ∅ = 0.
Proof. unfold msum. by rewrite map_fold_empty. Qed.

Lemma msum_insert_fresh (m : gmap N N) a v :
  m !! a = None → msum f (<[a:=v]> m) = f a v + msum f m.
Proof.
  intros Hnone. unfold msum.
  rewrite map_fold_insert_L; [done | | done].
  intros. lia.
Qed.

Lemma msum_delete (m : gmap N N) a v :
  m !! a = Some v → msum f m = f a v + msum f (delete a m).
Proof.
  intros Hsome. unfold msum.
  rewrite (map_fold_delete_L _ _ a v m); [done | | done].
  intros. lia.
Qed.

(** Writing [m[a] = v]: the old entry leaves the sum, the new one enters. *)
Lemma msum_insert (m : gmap N N) a v :
  f a 0 = 0 →
  msum f (<[a:=v]> m) + f a (default 0 (m !! a)) = f a v + msum f m.
Proof.
  intros Hzero. destruct (m !! a) as [w|] eqn:Hma; simpl.
  - rewrite (msum_delete m a w Hma).
    rewrite <- (insert_delete_eq m a v).
    rewrite msum_insert_fresh by apply lookup_delete_eq. lia.
  - rewrite msum_insert_fresh by done. lia.
Qed.
End msum_facts.

Lemma msum_ext f g (m : gmap N N) :
  (∀ a v, m !! a = Some v → f a v = g a v) → msum f m = msum g m.
Proof.
  induction m as [|a v m Hnone IH] using map_ind; intros Hfg.
  - by rewrite !msum_empty.
  - rewrite !msum_insert_fresh by done.
    rewrite (Hfg a v) by apply lookup_insert_eq.
    rewrite IH; [done|].
    intros b w Hb. apply Hfg. rewrite lookup_insert_ne; [done|].
    intros ->. congruence.
Qed.

(** Two summands that differ at one key only. *)
Lemma msum_point f g (m : gmap N N) a :
  f a 0 = 0 → g a 0 = 0 →
  (∀ b v, b ≠ a → f b v = g b v) →
  msum f m + g a (default 0 (m !! a)) = msum g m + f a (default 0 (m !! a)).
Proof.
  intros Hf Hg Hfg. destruct (m !! a) as [w|] eqn:Hma; simpl.
  - rewrite (msum_delete f m a w Hma), (msum_delete g m a w Hma).
    rewrite (msum_ext f g (delete a m)); [lia|].
    intros b v Hb. apply Hfg. intros ->. by rewrite lookup_delete_eq in Hb.
  - rewrite Hf, Hg. rewrite (msum_ext f g m); [done|].
    intros b v Hb. apply Hfg. intros ->. congruence.
Qed.

(** ** Reading the checks of a call that returned *)

Lemma revert_if_Ok {A} c e (k : unit → Result A) r :
  bind (revert_if c e) k = Ok r → c = false ∧ k tt = Ok r.
Proof. destruct c; simpl; [discriminate | done]. Qed.

Lemma checked_add_Ok {A} a b (k : N → Result A) r :
  bind (checked_add a b) k = Ok r → a + b <= MAX_UINT256 ∧ k (a + b) = Ok r.
Proof.
  unfold checked_add. destruct (a + b <=? MAX_UINT256) eqn:Hle; simpl;
    [|discriminate].
  apply N.leb_le in Hle. done.
Qed.

Lemma checked_sub_Ok {A} a b (k : N → Result A) r :
  bind (checked_sub a b) k = Ok r → b <= a ∧ k (a - b) = Ok r.
Proof.
  unfold checked_sub. destruct (b <=? a) eqn:Hle; simpl; [|discriminate].
  apply N.leb_le in Hle. done.
Qed.

Lemma checked_mul_Ok {A} a b (k : N → Result A) r :
  bind (checked_mul a b) k = Ok r → a * b <= MAX_UINT256 ∧ k (a * b) = Ok r.
Proof.
  unfold checked_mul. destruct (a * b <=? MAX_UINT256) eqn:Hle; simpl;
    [|discriminate].
  apply N.leb_le in Hle. done.
Qed.

Lemma milestoneAt_Ok {A} s i (k : Milestone → Result A) r :
  bind (milestoneAt s i) k = Ok r →
  ∃ m, milestones s !! N.to_nat i = Some m ∧ k m = Ok r.
Proof.
  unfold milestoneAt. destruct (milestones s !! N.to_nat i) as [m|]; simpl;
    [eauto | discriminate].
Qed.

Lemma call_value_Ok e s v r :
  match call_value e s v with Some s2 => Ok s2 | None => Revert TransferFailed end
    = Ok r →
  callee_accepts e = true ∧ v <= balance s ∧ r = set_balance s (balance s - v).
Proof.
  unfold call_value.
  destruct (callee_accepts e); simpl; [|discriminate].
  destruct (v <=? balance s) eqn:Hle; [|discriminate].
  apply N.leb_le in Hle. intros [= <-]. done.
Qed.

(** Peels the checks off a hypothesis [H : body = Ok s']. *)
Ltac peel H :=
  repeat first
    [ let Hc := fresh "Hcheck" in
      apply revert_if_Ok in H; destruct H as [Hc H]
    | let Hc := fresh "Hfit" in
      apply checked_add_Ok in H; destruct H as [Hc H]
    | let Hc := fresh "Hfit" in
      apply checked_sub_Ok in H; destruct H as [Hc H]
    | let Hc := fresh "Hfit" in
      apply checked_mul_Ok in H; destruct H as [Hc H]
    | let m := fresh "m" in
      let Hm := fresh "Hm" in
      apply milestoneAt_Ok in H; destruct H as (m & Hm & H)
    | let Ha := fresh "Haccept" in
      let Hb := fresh "Hheld" in
      apply call_value_Ok in H; destruct H as (Ha & Hb & H) ].

(** Turns the boolean tests of the checks into arithmetic facts. *)
Ltac arith :=
  repeat match goal with
  | H : negb _ = false |- _ => apply negb_false_iff in H
  | H : negb _ = true |- _ => apply negb_true_iff in H
  | H : _ || _ = false |- _ => apply orb_false_iff in H; destruct H
  | H : _ && _ = true |- _ => apply andb_true_iff in H; destruct H
  | H : (_ <=? _) = true |- _ => apply N.leb_le in H
  | H : (_ <=? _) = false |- _ => apply N.leb_gt in H
  | H : (_ <? _) = true |- _ => apply N.ltb_lt in H
  | H : (_ <? _) = false |- _ => apply N.ltb_ge in H
  | H : (_ =? _) = true |- _ => apply N.eqb_eq in H
  | H : (_ =? _) = false |- _ => apply N.eqb_neq in H
  end.

(** ** What each function does when it returns *)

Lemma donate_Ok e s s' :
  donate e s = Ok s' →
  block_timestamp e < deadline s ∧ msg_value e ≠ 0 ∧
  donationOf s (msg_sender e) + msg_value e <= MAX_UINT256 ∧
  totalDonations s + msg_value e <= MAX_UINT256 ∧
  s' = set_ledger s
         (<[msg_sender e := donationOf s (msg_sender e) + msg_value e]> (donations s))
         (totalDonations s + msg_value e).
Proof.
  unfold donate. intros H. peel H. arith. injection H as <-. done.
Qed.

Lemma createMilestone_Ok d a n e s s' :
  createMilestone d a n e s = Ok s' →
  msg_sender e = owner s ∧ String.length d ≠ 0%nat ∧ a ≠ 0 ∧ a <= balance s ∧
  n ≠ 0 ∧ block_timestamp e + n * days <= MAX_UINT256 ∧
  s' = set_milestones s
         (milestones s ++
            [mkMilestone d a (block_timestamp e + n * days) 0 0 false false true]).
Proof.
  unfold createMilestone, onlyOwner. intros H. peel H. arith.
  apply Nat.eqb_neq in Hcheck0. injection H as <-. done.
Qed.

Lemma voteOnMilestone_Ok i b e s s' :
  voteOnMilestone i b e s = Ok s' →
  ∃ m, milestones s !! N.to_nat i = Some m ∧
    donationOf s (msg_sender e) ≠ 0 ∧ votingActive m = true ∧
    block_timestamp e <= voteDeadline m ∧
    votedOn s i (msg_sender e) = false ∧
    (if b then yesVotes m else noVotes m) + donationOf s (msg_sender e)
      <= MAX_UINT256 ∧
    s' = store_milestone
           (set_hasVoted s (<[(i, msg_sender e) := true]> (hasVoted s))) i
           (if b
            then set_yesVotes m (yesVotes m + donationOf s (msg_sender e))
            else set_noVotes m (noVotes m + donationOf s (msg_sender e))).
Proof.
  unfold voteOnMilestone, onlyDonor. intros H. peel H. arith.
  exists m. destruct b; peel H; injection H as <-; done.
Qed.

Lemma finalizeMilestoneVote_Ok i e s s' :
  finalizeMilestoneVote i e s = Ok s' →
  ∃ m, milestones s !! N.to_nat i = Some m ∧
    votingActive m = true ∧ voteDeadline m < block_timestamp e ∧
    yesVotes m + noVotes m <= MAX_UINT256 ∧
    s' = store_milestone s i
           (if noVotes m <? yesVotes m
            then set_approved (set_votingActive m false) true
            else set_votingActive m false).
Proof.
  unfold finalizeMilestoneVote. intros H. peel H. arith.
  exists m. simpl in *. repeat split; try done.
  destruct (noVotes m <? yesVotes m) eqn:Hmaj.
  - assert (Hpos : (0 <? yesVotes m + noVotes m) = true).
    { apply N.ltb_lt. apply N.ltb_lt in Hmaj. lia. }
    rewrite Hpos in H. simpl in H. by injection H as <-.
  - rewrite andb_false_r in H. by injection H as <-.
Qed.

Lemma releaseMilestoneFunds_Ok i e s s' :
  releaseMilestoneFunds i e s = Ok s' →
  ∃ m, milestones s !! N.to_nat i = Some m ∧
    msg_sender e = owner s ∧ approved m = true ∧ fundsReleased m = false ∧
    fundAmount m <= balance s ∧ callee_accepts e = true ∧
    s' = set_balance (store_milestone s i (set_fundsReleased m true))
           (balance s - fundAmount m).
Proof.
  unfold releaseMilestoneFunds, onlyOwner. intros H. peel H. arith.
  exists m. simpl in *. subst s'. done.
Qed.

Lemma postUpdate_Ok t c e s s' :
  postUpdate t c e s = Ok s' →
  msg_sender e = owner s ∧
  s' = set_updates s (updates s ++ [mkCampaignUpdate t c (block_timestamp e)]).
Proof.
  unfold postUpdate, onlyOwner. intros H. peel H. arith.
  injection H as <-. done.
Qed.

Lemma withdraw_Ok e s s' :
  withdraw e s = Ok s' →
  msg_sender e = owner s ∧
  (deadline s <= block_timestamp e ∨ fundraisingGoal s <= totalDonations s) ∧
  balance s ≠ 0 ∧ callee_accepts e = true ∧ s' = set_balance s 0.
Proof.
  unfold withdraw, onlyOwner. intros H. peel H.
  apply negb_false_iff, orb_true_iff in Hcheck0. arith.
  rewrite N.sub_diag in H. repeat split; try done.
  destruct Hcheck0 as [Ht|Hg]; arith; auto.
Qed.

Lemma refund_Ok e s s' :
  refund e s = Ok s' →
  deadline s <= block_timestamp e ∧ totalDonations s < fundraisingGoal s ∧
  donationOf s (msg_sender e) ≠ 0 ∧
  donationOf s (msg_sender e) <= totalDonations s ∧
  donationOf s (msg_sender e) <= balance s ∧ callee_accepts e = true ∧
  s' = set_balance
         (set_ledger s (<[msg_sender e := 0]> (donations s))
            (totalDonations s - donationOf s (msg_sender e)))
         (balance s - donationOf s (msg_sender e)).
Proof.
  unfold refund. intros H. peel H. arith. simpl in *. subst s'. done.
Qed.

Lemma endCampaign_Ok e s s' :
  endCampaign e s = Ok s' →
  msg_sender e = owner s ∧ s' = set_campaignActive s false.
Proof.
  unfold endCampaign, onlyOwner. intros H. peel H. arith.
  injection H as <-. done.
Qed.

(** ** The invariant holds in every reachable storage *)

Lemma invariant_frame t s s' :
  totalDonations s' = totalDonations s → deadline s' = deadline s →
  donations s' = donations s → milestones s' = milestones s →
  hasVoted s' = hasVoted s →
  invariant t s → invariant t s'.
Proof.
  destruct s, s'; simpl. intros -> -> -> -> -> [Hl Hm Hv Ht].
  split; done.
Qed.

Lemma milestone_ok_mono t t' m : t <= t' → milestone_ok t m → milestone_ok t' m.
Proof.
  intros Hle (H1 & H2 & H3). repeat split; try done.
  intros Hoff. specialize (H3 Hoff). lia.
Qed.

Lemma milestones_ok_mono t t' s :
  t <= t' → milestones_ok t s → milestones_ok t' s.
Proof. intros Hle Hm i m Him. eapply milestone_ok_mono, Hm; done. Qed.

Lemma invariant_mono t t' s : t <= t' → invariant t s → invariant t' s.
Proof.
  intros Hle [Hl Hm Hv Ht]. split; try done.
  - by apply (milestones_ok_mono t).
  - intros i m Him. destruct (Ht i m Him) as [H1 H2].
    split; [done|]. intros Hopen. apply H2. lia.
Qed.

Lemma constructor_invariant e0 goal ndays s0 :
  constructor e0 goal ndays = Ok s0 → invariant (block_timestamp e0) s0.
Proof.
  unfold constructor. intros H. peel H. injection H as <-.
  split.
  - split; [apply msum_empty | done].
  - intros i m Him. done.
  - intros i a Hv. done.
  - intros i m Him. done.
Qed.

Lemma pending_weight_unvoted s i :
  (∀ a, votedOn s i a = false) → pending_weight s i = sum_donations s.
Proof.
  intros Hnone. apply msum_ext. intros a v _. by rewrite Hnone.
Qed.

Lemma donate_invariant t e s s' :
  donate e s = Ok s' → t <= block_timestamp e →
  invariant t s → invariant (block_timestamp e) s'.
Proof.
  intros H Hle [[Hsum Htot] Hm Hv Ht].
  apply donate_Ok in H as (Hopen & Hpos & Hfit1 & Hfit2 & ->).
  split.
  - split; [|done]. unfold sum_donations in *. simpl.
    pose proof (msum_insert (λ _ v, v) (donations s) (msg_sender e)
                  (donationOf s (msg_sender e) + msg_value e) eq_refl) as Hins.
    unfold donationOf in *. lia.
  - by apply (milestones_ok_mono t).
  - done.
  - intros i m Him. destruct (Ht i m Him) as [_ Hcov]. simpl in *.
    assert (Hold : yesVotes m + noVotes m + pending_weight s i
                     <= totalDonations s) by (apply Hcov; lia).
    assert (Hnew : pending_weight
               (set_ledger s
                  (<[msg_sender e := donationOf s (msg_sender e) + msg_value e]>
                     (donations s))
                  (totalDonations s + msg_value e)) i
             <= pending_weight s i + msg_value e).
    { unfold pending_weight, votedOn. simpl.
      pose proof (msum_insert
        (λ a v, if default false (hasVoted s !! (i, a)) then 0 else v)
        (donations s) (msg_sender e)
        (donationOf s (msg_sender e) + msg_value e)) as Hins.
      simpl in Hins. unfold donationOf in *.
      destruct (default false (hasVoted s !! (i, msg_sender e)));
        specialize (Hins eq_refl); lia. }
    split; [lia|]. intros _. lia.
Qed.

Lemma createMilestone_invariant t d a n e s s' :
  createMilestone d a n e s = Ok s' → t <= block_timestamp e →
  invariant t s → invariant (block_timestamp e) s'.
Proof.
  intros H Hle Hinv. apply (invariant_mono t _ _ Hle) in Hinv.
  destruct Hinv as [[Hsum Htot] Hm Hv Ht].
  apply createMilestone_Ok in H as (_ & _ & _ & _ & _ & _ & ->).
  split.
  - done.
  - intros i m. simpl. intros Him.
    apply lookup_app_Some in Him as [Him | [_ Him]]; [by eapply Hm|].
    apply list_lookup_singleton_Some in Him as [_ <-]. done.
  - intros i b Hb. simpl. rewrite length_app. specialize (Hv i b Hb). lia.
  - intros i m. simpl. intros Him.
    apply lookup_app_Some in Him as [Him | [Hlen Him]]; [by apply Ht|].
    apply list_lookup_singleton_Some in Him as [_ <-]. simpl.
    assert (Hfresh : pending_weight s i = sum_donations s).
    { apply pending_weight_unvoted. intros b.
      destruct (votedOn s i b) eqn:Hb; [|done].
      specialize (Hv i b Hb). lia. }
    change (pending_weight (set_milestones s _) i) with (pending_weight s i).
    rewrite Hfresh, Hsum. split; [lia|]. intros _. lia.
Qed.

Lemma votedOn_insert s i a j b :
  default false (<[(i, a) := true]> (hasVoted s) !! (j, b))
  = if decide ((i, a) = (j, b)) then true else votedOn s j b.
Proof.
  unfold votedOn. rewrite lookup_insert. by case_decide.
Qed.

Lemma pending_weight_cast s s' i a :
  donations s' = donations s →
  hasVoted s' = <[(i, a) := true]> (hasVoted s) →
  votedOn s i a = false →
  pending_weight s' i + donationOf s a = pending_weight s i.
Proof.
  intros Hd Hv Hnew. unfold pending_weight, donationOf. rewrite Hd.
  pose proof (msum_point
    (λ c v, if votedOn s i c then 0 else v)
    (λ c v, if votedOn s' i c then 0 else v)
    (donations s) a) as Hpt.
  simpl in Hpt. rewrite Hnew in Hpt.
  assert (Hset : votedOn s' i a = true).
  { unfold votedOn. rewrite Hv, votedOn_insert. by rewrite decide_True. }
  rewrite Hset in Hpt. rewrite <- Hpt; [lia | done | done |].
  intros c v Hc. unfold votedOn at 2. rewrite Hv, votedOn_insert.
  rewrite decide_False by congruence. done.
Qed.

Lemma pending_weight_other s s' i j a :
  i ≠ j →
  donations s' = donations s →
  hasVoted s' = <[(i, a) := true]> (hasVoted s) →
  pending_weight s' j = pending_weight s j.
Proof.
  intros Hne Hd Hv. unfold pending_weight. rewrite Hd.
  apply msum_ext. intros c v _. unfold votedOn at 1.
  rewrite Hv, votedOn_insert. rewrite decide_False by congruence. done.
Qed.

Lemma voteOnMilestone_invariant t i b e s s' :
  voteOnMilestone i b e s = Ok s' → t <= block_timestamp e →
  invariant t s → invariant (block_timestamp e) s'.
Proof.
  intros H Hle Hinv. apply (invariant_mono t _ _ Hle) in Hinv.
  destruct Hinv as [[Hsum Htot] Hm Hv Ht].
  apply voteOnMilestone_Ok in H
    as (m & Him & Hdonor & Hactive & Hopen & Hnew & Hfit & ->).
  assert (Hlen : (N.to_nat i < length (milestones s))%nat)
    by (by eapply lookup_lt_Some).
  split.
  - done.
  - intros j mj. simpl. intros Hj.
    destruct (decide (j = N.to_nat i)) as [->|Hne].
    + rewrite list_lookup_insert_eq in Hj by done. injection Hj as <-.
      specialize (Hm _ _ Him). by destruct b.
    + rewrite list_lookup_insert_ne in Hj by done. by eapply Hm.
  - intros j c. unfold votedOn at 1. simpl. rewrite votedOn_insert.
    rewrite length_insert. case_decide as Heq; [|by apply Hv].
    injection Heq as <- <-. done.
  - intros j mj. simpl. intros Hj.
    destruct (decide (j = i)) as [->|Hne].
    + rewrite list_lookup_insert_eq in Hj by done. injection Hj as <-.
      destruct (Ht _ _ Him) as [Hmax Hcov].
      rewrite <- (pending_weight_cast s
                    (store_milestone
                       (set_hasVoted s
                          (<[(i, msg_sender e) := true]> (hasVoted s))) i
                       (if b
                        then set_yesVotes m
                               (yesVotes m + donationOf s (msg_sender e))
                        else set_noVotes m
                               (noVotes m + donationOf s (msg_sender e))))
                    i (msg_sender e) eq_refl eq_refl Hnew) in Hmax, Hcov.
      destruct b; simpl in *; (split; [lia|]); intros Hbefore;
        specialize (Hcov Hbefore); lia.
    + rewrite list_lookup_insert_ne in Hj by (intros Heq; apply Hne; lia).
      destruct (Ht _ _ Hj) as [Hmax Hcov].
      rewrite (pending_weight_other s _ i j (msg_sender e)); done.
Qed.

Lemma finalizeMilestoneVote_invariant t i e s s' :
  finalizeMilestoneVote i e s = Ok s' → t <= block_timestamp e →
  invariant t s → invariant (block_timestamp e) s'.
Proof.
  intros H Hle Hinv. apply (invariant_mono t _ _ Hle) in Hinv.
  destruct Hinv as [[Hsum Htot] Hm Hv Ht].
  apply finalizeMilestoneVote_Ok in H
    as (m & Him & Hactive & Hover & Hfit & ->).
  assert (Hlen : (N.to_nat i < length (milestones s))%nat)
    by (by eapply lookup_lt_Some).
  split.
  - done.
  - intros j mj. simpl. intros Hj.
    destruct (decide (j = N.to_nat i)) as [->|Hne].
    + rewrite list_lookup_insert_eq in Hj by done. injection Hj as <-.
      destruct (Hm _ _ Him) as (H1 & H2 & H3).
      destruct (noVotes m <? yesVotes m); repeat split; simpl; done.
    + rewrite list_lookup_insert_ne in Hj by done. by eapply Hm.
  - intros j c Hc. simpl. rewrite length_insert. exact (Hv j c Hc).
  - intros j mj. simpl. intros Hj.
    change (pending_weight (store_milestone s i _) j)
      with (pending_weight s j).
    destruct (decide (j = i)) as [->|Hne].
    + rewrite list_lookup_insert_eq in Hj by done. injection Hj as <-.
      destruct (Ht _ _ Him) as [Hmax Hcov].
      by destruct (noVotes m <? yesVotes m).
    + rewrite list_lookup_insert_ne in Hj by (intros Heq; apply Hne; lia).
      by apply Ht.
Qed.

Lemma releaseMilestoneFunds_invariant t i e s s' :
  releaseMilestoneFunds i e s = Ok s' → t <= block_timestamp e →
  invariant t s → invariant (block_timestamp e) s'.
Proof.
  intros H Hle Hinv. apply (invariant_mono t _ _ Hle) in Hinv.
  destruct Hinv as [[Hsum Htot] Hm Hv Ht].
  apply releaseMilestoneFunds_Ok in H
    as (m & Him & _ & Happroved & Hfresh & _ & _ & ->).
  assert (Hlen : (N.to_nat i < length (milestones s))%nat)
    by (by eapply lookup_lt_Some).
  split.
  - done.
  - intros j mj. simpl. intros Hj.
    destruct (decide (j = N.to_nat i)) as [->|Hne].
    + rewrite list_lookup_insert_eq in Hj by done. injection Hj as <-.
      destruct (Hm _ _ Him) as (H1 & H2 & H3). done.
    + rewrite list_lookup_insert_ne in Hj by done. by eapply Hm.
  - intros j c Hc. simpl. rewrite length_insert. exact (Hv j c Hc).
  - intros j mj. simpl. intros Hj.
    change (pending_weight (set_balance _ _) j) with (pending_weight s j).
    destruct (decide (j = i)) as [->|Hne].
    + rewrite list_lookup_insert_eq in Hj by done. injection Hj as <-.
      exact (Ht _ _ Him).
    + rewrite list_lookup_insert_ne in Hj by (intros Heq; apply Hne; lia).
      exact (Ht _ _ Hj).
Qed.

Lemma refund_invariant t e s s' :
  refund e s = Ok s' → t <= block_timestamp e →
  invariant t s → invariant (block_timestamp e) s'.
Proof.
  intros H Hle Hinv. apply (invariant_mono t _ _ Hle) in Hinv.
  destruct Hinv as [[Hsum Htot] Hm Hv Ht].
  apply refund_Ok in H as (Hclosed & _ & Hpos & Hfit & _ & _ & ->).
  split.
  - split; [|simpl; lia]. unfold sum_donations in *. simpl.
    pose proof (msum_insert (λ _ v, v) (donations s) (msg_sender e) 0 eq_refl)
      as Hins.
    unfold donationOf in *. lia.
  - done.
  - done.
  - intros i m Him. simpl in Him. destruct (Ht i m Him) as [Hmax _].
    split; [|simpl; lia].
    assert (Hless :
      pending_weight
        (set_balance
           (set_ledger s (<[msg_sender e := 0]> (donations s))
              (totalDonations s - donationOf s (msg_sender e)))
           (balance s - donationOf s (msg_sender e))) i
      <= pending_weight s i).
    { unfold pending_weight, votedOn. simpl.
      pose proof (msum_insert
        (λ a v, if default false (hasVoted s !! (i, a)) then 0 else v)
        (donations s) (msg_sender e) 0) as Hins.
      simpl in Hins.
      destruct (default false (hasVoted s !! (i, msg_sender e)));
        specialize (Hins eq_refl); lia. }
    lia.
Qed.

(** A transaction keeps the invariant, whatever the call and its outcome. *)
Lemma transact_invariant t e c s :
  t <= block_timestamp e → invariant t s →
  invariant (block_timestamp e) (transact e c s).
Proof.
  intros Hle Hinv. unfold transact.
  destruct (execute c e s) as [s'|err] eqn:Hrun;
    [|by apply (invariant_mono t)].
  destruct c; cbn [execute] in Hrun; unfold payable in Hrun;
    [ | | unfold nonpayable in Hrun; apply revert_if_Ok in Hrun as [_ Hrun] ..].
  - discriminate.
  - apply (donate_invariant t e (receive_value e s)); [done | done |].
    by apply (invariant_frame t s).
  - eapply (createMilestone_invariant t); [exact Hrun | done | done].
  - eapply (voteOnMilestone_invariant t); [exact Hrun | done | done].
  - eapply (finalizeMilestoneVote_invariant t); [exact Hrun | done | done].
  - eapply (releaseMilestoneFunds_invariant t); [exact Hrun | done | done].
  - apply postUpdate_Ok in Hrun as [_ ->].
    apply (invariant_frame (block_timestamp e) s); try done.
    by apply (invariant_mono t).
  - apply withdraw_Ok in Hrun as (_ & _ & _ & _ & ->).
    apply (invariant_frame (block_timestamp e) s); try done.
    by apply (invariant_mono t).
  - by apply (refund_invariant t e s).
  - apply endCampaign_Ok in Hrun as [_ ->].
    apply (invariant_frame (block_timestamp e) s); try done.
    by apply (invariant_mono t).
Qed.

Lemma evolves_invariant t s t' s' :
  evolves t s t' s' → invariant t s → invariant t' s'.
Proof.
  induction 1 as [|t' s' e c Hev IH Hle]; intros Hinv; [done|].
  apply (transact_invariant t'); auto.
Qed.

Lemma reachable_invariant t s : reachable t s → invariant t s.
Proof.
  intros (e0 & goal & ndays & s0 & Hinit & Hev).
  eapply evolves_invariant; [done|]. by eapply constructor_invariant.
Qed.

Lemma evolves_trans t1 s1 t2 s2 t3 s3 :
  evolves t1 s1 t2 s2 → evolves t2 s2 t3 s3 → evolves t1 s1 t3 s3.
Proof.
  intros H12 H23. induction H23 as [|t3 s3 e c H23 IH Hle]; [done|].
  by apply (evolves_call _ _ t3).
Qed.

Lemma reachable_evolves t s t' s' :
  reachable t s → evolves t s t' s' → reachable t' s'.
Proof.
  intros (e0 & goal & ndays & s0 & Hinit & Hev) Hstep.
  exists e0, goal, ndays, s0. split; [done|]. by eapply evolves_trans.
Qed.

(** ** Milestones only move forward *)

Lemma milestone_le_refl m : milestone_le m m.
Proof. repeat split; done. Qed.

Lemma milestone_le_trans m1 m2 m3 :
  milestone_le m1 m2 → milestone_le m2 m3 → milestone_le m1 m3.
Proof.
  intros (Hd & Hf & Hv & Hr & Ha & Hc) (Hd' & Hf' & Hv' & Hr' & Ha' & Hc').
  unfold milestone_le. split_and!; try congruence; auto.
  intros Hoff. destruct (Hc Hoff) as (Hoff' & ? & ? & ?).
  destruct (Hc' Hoff') as (? & ? & ? & ?). split_and!; congruence.
Qed.

(** Writing a later version of milestone [i] moves every milestone forward. *)
Lemma store_milestone_le (ms : list Milestone) i m m' j mj :
  ms !! i = Some m → milestone_le m m' → ms !! j = Some mj →
  ∃ mj', <[i := m']> ms !! j = Some mj' ∧ milestone_le mj mj'.
Proof.
  intros Hi Hle Hj. destruct (decide (j = i)) as [->|Hne].
  - exists m'. rewrite list_lookup_insert_eq by (by eapply lookup_lt_Some).
    split; [done|]. congruence.
  - exists mj. rewrite list_lookup_insert_ne by done.
    split; [done | apply milestone_le_refl].
Qed.

Lemma execute_milestone_le e c s s' j mj :
  execute c e s = Ok s' → milestones s !! j = Some mj →
  ∃ mj', milestones s' !! j = Some mj' ∧ milestone_le mj mj'.
Proof.
  intros Hrun Hj.
  assert (Hsame : milestones s' = milestones s →
            ∃ mj', milestones s' !! j = Some mj' ∧ milestone_le mj mj').
  { intros ->. exists mj. split; [done | apply milestone_le_refl]. }
  destruct c; cbn [execute] in Hrun; unfold payable in Hrun;
    [ | | unfold nonpayable in Hrun; apply revert_if_Ok in Hrun as [_ Hrun] ..].
  - discriminate.
  - apply donate_Ok in Hrun as (_ & _ & _ & _ & ->). by apply Hsame.
  - apply createMilestone_Ok in Hrun as (_ & _ & _ & _ & _ & _ & ->).
    exists mj. simpl. rewrite lookup_app_l by (by eapply lookup_lt_Some).
    split; [done | apply milestone_le_refl].
  - apply voteOnMilestone_Ok in Hrun
      as (m & Him & _ & Hactive & _ & _ & _ & ->).
    simpl. eapply store_milestone_le; [exact Him | | exact Hj].
    destruct _approve; repeat split; simpl; congruence.
  - apply finalizeMilestoneVote_Ok in Hrun as (m & Him & Hactive & _ & _ & ->).
    simpl. eapply store_milestone_le; [exact Him | | exact Hj].
    destruct (noVotes m <? yesVotes m); repeat split; simpl; congruence.
  - apply releaseMilestoneFunds_Ok in Hrun
      as (m & Him & _ & _ & _ & _ & _ & ->).
    simpl. eapply store_milestone_le; [exact Him | | exact Hj].
    repeat split; simpl; congruence.
  - apply postUpdate_Ok in Hrun as [_ ->]. by apply Hsame.
  - apply withdraw_Ok in Hrun as (_ & _ & _ & _ & ->). by apply Hsame.
  - apply refund_Ok in Hrun as (_ & _ & _ & _ & _ & _ & ->). by apply Hsame.
  - apply endCampaign_Ok in Hrun as [_ ->]. by apply Hsame.
Qed.

Lemma transact_milestone_le e c s j mj :
  milestones s !! j = Some mj →
  ∃ mj', milestones (transact e c s) !! j = Some mj' ∧ milestone_le mj mj'.
Proof.
  intros Hj. unfold transact.
  destruct (execute c e s) as [s'|err] eqn:Hrun.
  - by eapply execute_milestone_le.
  - exists mj. split; [done | apply milestone_le_refl].
Qed.

Lemma evolves_milestone_le t s t' s' j mj :
  evolves t s t' s' → milestones s !! j = Some mj →
  ∃ mj', milestones s' !! j = Some mj' ∧ milestone_le mj mj'.
Proof.
  induction 1 as [|t' s' e c Hev IH Hle]; intros Hj.
  - exists mj. split; [done | apply milestone_le_refl].
  - destruct (IH Hj) as (m1 & Hj1 & Hle1).
    destruct (transact_milestone_le e c s' j m1 Hj1) as (m2 & Hj2 & Hle2).
    exists m2. split; [done|]. by eapply milestone_le_trans.
Qed.

(** Only a release by the owner of an approved milestone sets
    [fundsReleased]. *)
Lemma execute_sets_released e c s s' i m m' :
  execute c e s = Ok s' →
  milestones s !! N.to_nat i = Some m →
  milestones s' !! N.to_nat i = Some m' →
  fundsReleased m = false → fundsReleased m' = true →
  c = CReleaseMilestoneFunds i ∧ msg_sender e = owner s ∧ approved m = true.
Proof.
  intros Hrun Hi Hi' Hno Hyes.
  assert (Hsame : milestones s' = milestones s → False).
  { intros Heq. rewrite Heq in Hi'. congruence. }
  assert (Hstore : ∀ j old new,
            milestones s !! N.to_nat j = Some old →
            <[N.to_nat j := new]> (milestones s) !! N.to_nat i = Some m' →
            j = i ∧ new = m').
  { intros j old new Hj Hlook.
    destruct (decide (N.to_nat i = N.to_nat j)) as [Heq|Hne].
    - rewrite Heq in Hlook.
      rewrite list_lookup_insert_eq in Hlook by (by eapply lookup_lt_Some).
      split; [lia | congruence].
    - rewrite list_lookup_insert_ne in Hlook by done. congruence. }
  destruct c; cbn [execute] in Hrun; unfold payable in Hrun;
    [ | | unfold nonpayable in Hrun; apply revert_if_Ok in Hrun as [_ Hrun] ..].
  - discriminate.
  - apply donate_Ok in Hrun as (_ & _ & _ & _ & ->). by destruct Hsame.
  - apply createMilestone_Ok in Hrun as (_ & _ & _ & _ & _ & _ & ->).
    simpl in Hi'. rewrite lookup_app_l in Hi' by (by eapply lookup_lt_Some).
    congruence.
  - apply voteOnMilestone_Ok in Hrun
      as (m0 & Him & _ & _ & _ & _ & _ & ->). simpl in Hi'.
    apply (Hstore _ _ _ Him) in Hi' as [-> <-].
    assert (m0 = m) as -> by congruence.
    destruct _approve; simpl in Hyes; congruence.
  - apply finalizeMilestoneVote_Ok in Hrun as (m0 & Him & _ & _ & _ & ->).
    simpl in Hi'. apply (Hstore _ _ _ Him) in Hi' as [-> <-].
    assert (m0 = m) as -> by congruence.
    destruct (noVotes m <? yesVotes m); simpl in Hyes; congruence.
  - apply releaseMilestoneFunds_Ok in Hrun
      as (m0 & Him & Hown & Happ & _ & _ & _ & ->).
    simpl in Hi'. apply (Hstore _ _ _ Him) in Hi' as [-> <-].
    assert (m0 = m) as -> by congruence. done.
  - apply postUpdate_Ok in Hrun as [_ ->]. by destruct Hsame.
  - apply withdraw_Ok in Hrun as (_ & _ & _ & _ & ->). by destruct Hsame.
  - apply refund_Ok in Hrun as (_ & _ & _ & _ & _ & _ & ->). by destruct Hsame.
  - apply endCampaign_Ok in Hrun as [_ ->]. by destruct Hsame.
Qed.

Lemma phase_Approved m :
  phase m = Approved ↔ votingActive m = false ∧ approved m = true.
Proof.
  unfold phase. destruct (votingActive m), (approved m); split;
    (intros [? ?] || intros ?); (done || split; done).
Qed.

Lemma phase_Voting m : phase m = Voting ↔ votingActive m = true.
Proof. unfold phase. by destruct (votingActive m), (approved m). Qed.

(** A released milestone cannot be released again. *)
Lemma release_again i e s m :
  milestones s !! N.to_nat i = Some m →
  approved m = true → fundsReleased m = true →
  (∀ r, releaseMilestoneFunds i e s ≠ Ok r) ∧
  (msg_sender e = owner s →
   releaseMilestoneFunds i e s = Revert FundsAlreadyReleased).
Proof.
  intros Hi Happ Hrel. split.
  - intros r Hr. apply releaseMilestoneFunds_Ok in Hr
      as (m0 & Him & _ & _ & Hfresh & _). congruence.
  - intros Hown. unfold releaseMilestoneFunds, onlyOwner, milestoneAt.
    rewrite Hown, N.eqb_refl, Hi. simpl. by rewrite Happ, Hrel.
Qed.

(** ** Vote records are never cleared *)

Lemma execute_votedOn e c s s' i a :
  execute c e s = Ok s' → votedOn s i a = true → votedOn s' i a = true.
Proof.
  intros Hrun Hv.
  destruct c; cbn [execute] in Hrun; unfold payable in Hrun;
    [ | | unfold nonpayable in Hrun; apply revert_if_Ok in Hrun as [_ Hrun] ..].
  - discriminate.
  - by apply donate_Ok in Hrun as (_ & _ & _ & _ & ->).
  - by apply createMilestone_Ok in Hrun as (_ & _ & _ & _ & _ & _ & ->).
  - apply voteOnMilestone_Ok in Hrun as (m & _ & _ & _ & _ & _ & _ & ->).
    unfold votedOn at 1. simpl. rewrite votedOn_insert.
    by case_decide.
  - by apply finalizeMilestoneVote_Ok in Hrun as (m & _ & _ & _ & _ & ->).
  - by apply releaseMilestoneFunds_Ok in Hrun
      as (m & _ & _ & _ & _ & _ & _ & ->).
  - by apply postUpdate_Ok in Hrun as [_ ->].
  - by apply withdraw_Ok in Hrun as (_ & _ & _ & _ & ->).
  - by apply refund_Ok in Hrun as (_ & _ & _ & _ & _ & _ & ->).
  - by apply endCampaign_Ok in Hrun as [_ ->].
Qed.

Lemma transact_votedOn e c s i a :
  votedOn s i a = true → votedOn (transact e c s) i a = true.
Proof.
  intros Hv. unfold transact.
  destruct (execute c e s) as [s'|err] eqn:Hrun; [|done].
  by eapply execute_votedOn.
Qed.

Lemma evolves_votedOn t s t' s' i a :
  evolves t s t' s' → votedOn s i a = true → votedOn s' i a = true.
Proof.
  induction 1 as [|t' s' e c Hev IH Hle]; intros Hv; [done|].
  apply transact_votedOn. auto.
Qed.

(** A reverting transaction changes nothing. *)
Lemma transact_Revert e c s err : execute c e s = Revert err → transact e c s = s.
Proof. unfold transact. by intros ->. Qed.

Lemma nonpayable_Revert body e s err :
  body e s = Revert err → ∃ err', nonpayable body e s = Revert err'.
Proof.
  intros Hbody. unfold nonpayable.
  destruct (negb (msg_value e =? 0)); simpl; eauto.
Qed.

(** The outcome of a vote by someone who has already voted. *)
Lemma vote_again i b e s m :
  milestones s !! N.to_nat i = Some m →
  votedOn s i (msg_sender e) = true →
  voteOnMilestone i b e s =
    Revert (if donationOf s (msg_sender e) =? 0 then OnlyDonorsCanVote
            else if negb (votingActive m) then VotingNotActive
            else if voteDeadline m <? block_timestamp e then VotingNotActive
            else AlreadyVoted).
Proof.
  intros Hi Hv. unfold voteOnMilestone, onlyDonor, milestoneAt.
  rewrite Hi, Hv.
  destruct (donationOf s (msg_sender e) =? 0); cbn [bind revert_if]; [done|].
  destruct (votingActive m); cbn [bind revert_if negb]; [|done].
  by destruct (voteDeadline m <? block_timestamp e).
Qed.

(** ** Closing a vote *)

(** With tallies that add up within [uint256], closing an open vote after
    its deadline returns and records the outcome. *)
Lemma finalize_returns i e s m :
  milestones s !! N.to_nat i = Some m →
  votingActive m = true → voteDeadline m < block_timestamp e →
  yesVotes m + noVotes m <= MAX_UINT256 →
  finalizeMilestoneVote i e s =
    Ok (store_milestone s i
          (if noVotes m <? yesVotes m
           then set_approved (set_votingActive m false) true
           else set_votingActive m false)).
Proof.
  intros Hi Hopen Hover Hfit.
  unfold finalizeMilestoneVote, milestoneAt, checked_add.
  rewrite Hi. cbn [bind]. rewrite Hopen. cbn [negb bind revert_if].
  assert ((block_timestamp e <=? voteDeadline m) = false) as ->
    by (by apply N.leb_gt).
  cbn [bind revert_if]. simpl yesVotes. simpl noVotes.
  assert ((yesVotes m + noVotes m <=? MAX_UINT256) = true) as ->
    by (by apply N.leb_le).
  cbn [bind].
  destruct (noVotes m <? yesVotes m) eqn:Hmaj.
  - assert ((0 <? yesVotes m + noVotes m) = true) as ->; [|done].
    apply N.ltb_lt. apply N.ltb_lt in Hmaj. lia.
  - by rewrite andb_false_r.
Qed.

Lemma finalize_closed i e s m :
  milestones s !! N.to_nat i = Some m → votingActive m = false →
  finalizeMilestoneVote i e s = Revert VotingNotActive.
Proof.
  intros Hi Hoff. unfold finalizeMilestoneVote, milestoneAt.
  rewrite Hi. cbn [bind]. by rewrite Hoff.
Qed.

Lemma finalize_early i e s m :
  milestones s !! N.to_nat i = Some m → votingActive m = true →
  block_timestamp e <= voteDeadline m →
  finalizeMilestoneVote i e s = Revert VotingStillActive.
Proof.
  intros Hi Hopen Hearly. unfold finalizeMilestoneVote, milestoneAt.
  rewrite Hi. cbn [bind]. rewrite Hopen. cbn [negb bind revert_if].
  assert ((block_timestamp e <=? voteDeadline m) = true) as ->
    by (by apply N.leb_le).
  done.
Qed.

(** ** Balances within the ledger *)

Lemma msum_ge f (m : gmap N N) a v : m !! a = Some v → f a v <= msum f m.
Proof. intros Ha. rewrite (msum_delete f m a v Ha). lia. Qed.

(** No donor holds more than the total of an adding-up ledger. *)
Lemma donation_le_total s a :
  sum_donations s = totalDonations s → donationOf s a <= totalDonations s.
Proof.
  intros <-. unfold donationOf, sum_donations.
  destruct (donations s !! a) as [v|] eqn:Ha; simpl; [|lia].
  by apply (msum_ge (λ _ v, v) (donations s) a v).
Qed.

(** ** The scenarios are reachable *)

Lemma deployed_reachable : reachable 1000 deployed.
Proof.
  exists (at_time the_owner 0 1000), 10, 1, deployed.
  split; [reflexivity | apply evolves_here].
Qed.

Ltac next_call t' :=
  match goal with
  | |- reachable _ (transact ?e ?c ?s) =>
      apply (reachable_evolves t' s (block_timestamp e) (transact e c s));
      [ | apply (evolves_call t' s t' s e c);
          [apply evolves_here | vm_compute; discriminate] ]
  end.

Lemma funded_reachable : reachable 1200 funded.
Proof.
  unfold funded. next_call 1100. next_call 1000. apply deployed_reachable.
Qed.

Lemma proposed_reachable : reachable 2000 proposed.
Proof. unfold proposed. next_call 1200. apply funded_reachable. Qed.

Lemma voted_reachable : reachable 3100 voted.
Proof.
  unfold voted. next_call 3000. next_call 2000. apply proposed_reachable.
Qed.

Lemma finalized_reachable : reachable 174801 finalized.
Proof. unfold finalized. next_call 3100. apply voted_reachable. Qed.

Lemma released_reachable : reachable 174900 released.
Proof. unfold released. next_call 174801. apply finalized_reachable. Qed.

Lemma underfunded_reachable : reachable 1200 underfunded.
Proof.
  unfold underfunded. next_call 1100. next_call 1000. apply deployed_reachable.
Qed.

Lemma overfull_reachable : reachable 1100 overfull.
Proof. unfold overfull. next_call 1000. apply deployed_reachable. Qed.

(** ** C1: the ledger adds up *)

(** C1. In every reachable state of the contract (after the deployment and
    any sequence of donate, createMilestone, voteOnMilestone,
    finalizeMilestoneVote, releaseMilestoneFunds, postUpdate, withdraw,
    refund and endCampaign calls, whether they return or revert), the sum of
    all entries of [donations] equals [totalDonations]. *)
Theorem ledger_sum_invariant t s :
  reachable t s → sum_donations s = totalDonations s.
Proof.
  intros Hreach. by destruct (reachable_invariant t s Hreach) as [[Hsum _] _ _ _].
Qed.

Lemma ledger_sum_invariant_witness :
  reachable 174900 released ∧ sum_donations released = totalDonations released.
Proof.
  split; [apply released_reachable|].
  apply (ledger_sum_invariant 174900 released). apply released_reachable.
Defined.

(** ** C2: funds of a milestone are released once, after approval *)

(** C2. For every milestone [m] at index [i] of a reachable state:
    - if [fundsReleased] is set the milestone is Approved;
    - no call ever clears [fundsReleased], and the only call that sets it is
      a [releaseMilestoneFunds(i)] of the owner on the milestone in state
      Approved;
    - once [fundsReleased] is set it stays set in every later state, no
      [releaseMilestoneFunds(i)] returns any more, and the owner's call fails
      with [FundsAlreadyReleased]. *)
Theorem released_monotonic_once t s i m :
  reachable t s → milestones s !! N.to_nat i = Some m →
  (fundsReleased m = true → phase m = Approved) ∧
  (∀ e c, ∃ m',
     milestones (transact e c s) !! N.to_nat i = Some m' ∧
     (fundsReleased m = true → fundsReleased m' = true) ∧
     (fundsReleased m = false → fundsReleased m' = true →
      phase m = Approved ∧ c = CReleaseMilestoneFunds i ∧
      msg_sender e = owner s)) ∧
  (fundsReleased m = true →
   ∀ t' s', evolves t s t' s' →
     ∃ m', milestones s' !! N.to_nat i = Some m' ∧ fundsReleased m' = true ∧
       ∀ e, (∀ r, releaseMilestoneFunds i e s' ≠ Ok r) ∧
            (msg_sender e = owner s' →
             releaseMilestoneFunds i e s' = Revert FundsAlreadyReleased)).
Proof.
  intros Hreach Hi.
  pose proof (reachable_invariant t s Hreach) as [_ Hms _ _].
  destruct (Hms _ _ Hi) as (Hrel & Happ & _).
  split_and!.
  - intros Hset. apply phase_Approved. auto.
  - intros e c.
    destruct (transact_milestone_le e c s _ _ Hi) as (m' & Hi' & Hle).
    exists m'. split_and!; [done | apply Hle |].
    intros Hno Hyes. unfold transact in Hi'.
    destruct (execute c e s) as [s'|err] eqn:Hrun; [|congruence].
    destruct (execute_sets_released e c s s' i m m' Hrun Hi Hi' Hno Hyes)
      as (-> & Hown & Happroved).
    split_and!; [|done|done]. apply phase_Approved. auto.
  - intros Hset t' s' Hev.
    destruct (evolves_milestone_le t s t' s' _ _ Hev Hi) as (m' & Hi' & Hle).
    destruct Hle as (_ & _ & _ & Hr' & Ha' & _).
    exists m'. split_and!; [done | auto |].
    intros e. apply (release_again i e s' m'); auto.
Qed.

Lemma released_monotonic_once_witness :
  let m := mkMilestone "well" 3 174800 6 4 true true false in
  reachable 174900 released ∧ milestones released !! N.to_nat 0 = Some m ∧
  ((fundsReleased m = true → phase m = Approved) ∧
   (∀ e c, ∃ m',
      milestones (transact e c released) !! N.to_nat 0 = Some m' ∧
      (fundsReleased m = true → fundsReleased m' = true) ∧
      (fundsReleased m = false → fundsReleased m' = true →
       phase m = Approved ∧ c = CReleaseMilestoneFunds 0 ∧
       msg_sender e = owner released)) ∧
   (fundsReleased m = true →
    ∀ t' s', evolves 174900 released t' s' →
      ∃ m', milestones s' !! N.to_nat 0 = Some m' ∧ fundsReleased m' = true ∧
        ∀ e, (∀ r, releaseMilestoneFunds 0 e s' ≠ Ok r) ∧
             (msg_sender e = owner s' →
              releaseMilestoneFunds 0 e s' = Revert FundsAlreadyReleased))).
Proof.
  intros m. split; [apply released_reachable|]. split; [reflexivity|].
  apply (released_monotonic_once 174900 released 0 m);
    [apply released_reachable | reflexivity].
Defined.

(** ** C3: one vote per donor and milestone *)

(** C3, as stated, fails: X has voted on milestone 0, and X's next vote on
    it after the vote deadline fails with [VotingNotActive], not with
    [AlreadyVoted]. *)
Lemma further_vote_not_AlreadyVoted :
  reachable 3100 voted ∧ votedOn voted 0 donor_X = true ∧
  voteOnMilestone 0 true (at_time donor_X 0 174801) voted
    = Revert VotingNotActive ∧
  voteOnMilestone 0 true (at_time donor_X 0 174801) voted
    ≠ Revert AlreadyVoted.
Proof.
  split; [apply voted_reachable|].
  split; [reflexivity|]. split; [reflexivity|]. vm_compute. discriminate.
Qed.

(** C3, amended. For every milestone index [i] and donor [a]:
    - a [voteOnMilestone(i, _)] of [a] that returns finds
      [hasVoted[i][a]] clear and sets it;
    - once [hasVoted[i][a]] is set in a reachable state it is set in every
      later state, and every further [voteOnMilestone(i, _)] of [a] reverts
      and leaves the storage, with its tallies, as it was. The error is
      [OnlyDonorsCanVote] when [a] holds no donation any more,
      [VotingNotActive] when the vote is closed or its deadline has passed,
      and [AlreadyVoted] otherwise. *)
Theorem one_vote_per_donor i a :
  (∀ e b s s', msg_sender e = a → voteOnMilestone i b e s = Ok s' →
     votedOn s i a = false ∧ votedOn s' i a = true) ∧
  (∀ t s, reachable t s → votedOn s i a = true →
   ∀ t' s', evolves t s t' s' →
     votedOn s' i a = true ∧
     ∀ e b, msg_sender e = a →
       ∃ m, milestones s' !! N.to_nat i = Some m ∧
         voteOnMilestone i b e s' =
           Revert (if donationOf s' a =? 0 then OnlyDonorsCanVote
                   else if negb (votingActive m) then VotingNotActive
                   else if voteDeadline m <? block_timestamp e
                        then VotingNotActive
                        else AlreadyVoted) ∧
         transact e (CVoteOnMilestone i b) s' = s').
Proof.
  split.
  - intros e b s s' <- Hok.
    apply voteOnMilestone_Ok in Hok as (m & _ & _ & _ & _ & Hnew & _ & ->).
    split; [done|]. unfold votedOn. simpl. rewrite votedOn_insert.
    by rewrite decide_True.
  - intros t s Hreach Hv t' s' Hev.
    assert (Hv' : votedOn s' i a = true) by (by eapply evolves_votedOn).
    split; [done|]. intros e b <-.
    pose proof (reachable_invariant t' s'
                  (reachable_evolves _ _ _ _ Hreach Hev)) as [_ _ Hvotes _].
    destruct (lookup_lt_is_Some_2 (milestones s') (N.to_nat i)) as [m Hi];
      [by eapply Hvotes|].
    exists m. split; [done|].
    pose proof (vote_again i b e s' m Hi Hv') as Hagain.
    split; [done|].
    destruct (nonpayable_Revert (voteOnMilestone i b) e s' _ Hagain)
      as [err Herr].
    by eapply transact_Revert.
Qed.

Lemma one_vote_per_donor_witness :
  reachable 3100 voted ∧ votedOn voted 0 donor_X = true ∧
  ∀ t' s', evolves 3100 voted t' s' →
    votedOn s' 0 donor_X = true ∧
    ∀ e b, msg_sender e = donor_X →
      ∃ m, milestones s' !! N.to_nat 0 = Some m ∧
        voteOnMilestone 0 b e s' =
          Revert (if donationOf s' donor_X =? 0 then OnlyDonorsCanVote
                  else if negb (votingActive m) then VotingNotActive
                  else if voteDeadline m <? block_timestamp e
                       then VotingNotActive
                       else AlreadyVoted) ∧
        transact e (CVoteOnMilestone 0 b) s' = s'.
Proof.
  split; [apply voted_reachable|]. split; [reflexivity|].
  apply (proj2 (one_vote_per_donor 0 donor_X) 3100 voted);
    [apply voted_reachable | reflexivity].
Defined.

(** ** C4: the approval rule *)

(** C4. For every milestone of a reachable state that is in state Voting
    and whose vote deadline has passed, [finalizeMilestoneVote] returns and
    leaves the milestone Approved exactly when [yesVotes > noVotes], and
    Rejected otherwise: ties, [yesVotes <= noVotes] and no votes at all give
    Rejected. The tallies are not touched. *)
Theorem finalize_majority t s i m e :
  reachable t s → milestones s !! N.to_nat i = Some m →
  phase m = Voting → voteDeadline m < block_timestamp e →
  ∃ s' m',
    finalizeMilestoneVote i e s = Ok s' ∧
    milestones s' !! N.to_nat i = Some m' ∧
    yesVotes m' = yesVotes m ∧ noVotes m' = noVotes m ∧
    (phase m' = Approved ↔ noVotes m < yesVotes m) ∧
    (phase m' = Rejected ↔ yesVotes m <= noVotes m) ∧
    (yesVotes m = noVotes m → phase m' = Rejected) ∧
    (yesVotes m = 0 → noVotes m = 0 → phase m' = Rejected).
Proof.
  intros Hreach Hi Hvoting Hover. apply phase_Voting in Hvoting.
  pose proof (reachable_invariant t s Hreach) as [_ Hms _ Htally].
  destruct (Htally _ _ Hi) as [Hmax _].
  destruct (Hms _ _ Hi) as (_ & Happ & _).
  assert (Hnot : approved m = false).
  { destruct (approved m); [|done]. specialize (Happ eq_refl). congruence. }
  eexists _, _. split; [apply (finalize_returns i e s m); auto; lia|].
  split.
  { simpl. apply list_lookup_insert_eq. by eapply lookup_lt_Some. }
  destruct (noVotes m <? yesVotes m) eqn:Hmaj; arith;
    unfold phase; simpl; rewrite ?Hnot;
    split_and!; try done; try lia; split; (done || lia).
Qed.

Lemma finalize_majority_witness :
  let m := mkMilestone "well" 3 174800 6 4 false false true in
  let e := at_time donor_Y 0 174801 in
  reachable 3100 voted ∧ milestones voted !! N.to_nat 0 = Some m ∧
  phase m = Voting ∧ voteDeadline m < block_timestamp e ∧
  ∃ s' m',
    finalizeMilestoneVote 0 e voted = Ok s' ∧
    milestones s' !! N.to_nat 0 = Some m' ∧
    yesVotes m' = yesVotes m ∧ noVotes m' = noVotes m ∧
    (phase m' = Approved ↔ noVotes m < yesVotes m) ∧
    (phase m' = Rejected ↔ yesVotes m <= noVotes m) ∧
    (yesVotes m = noVotes m → phase m' = Rejected) ∧
    (yesVotes m = 0 → noVotes m = 0 → phase m' = Rejected).
Proof.
  intros m e. split; [apply voted_reachable|].
  split; [reflexivity|]. split; [reflexivity|]. split; [reflexivity|].
  apply (finalize_majority 3100 voted 0 m e);
    [apply voted_reachable | reflexivity | reflexivity | reflexivity].
Defined.

(** ** C5: when a vote can be closed *)

(** C5. For every milestone [m] at index [i] of a reachable state:
    - at any time at or before [voteDeadline], [finalizeMilestoneVote(i)]
      fails with [VotingStillActive] and the storage stays as it was;
    - after [voteDeadline], on a milestone still in state Voting, the call
      returns and the milestone leaves Voting; in every later state the
      milestone keeps that outcome, and any further call fails with
      [VotingNotActive]. *)
Theorem finalize_timing t s i m :
  reachable t s → milestones s !! N.to_nat i = Some m →
  (∀ e, t <= block_timestamp e → block_timestamp e <= voteDeadline m →
     finalizeMilestoneVote i e s = Revert VotingStillActive ∧
     transact e (CFinalizeMilestoneVote i) s = s) ∧
  (∀ e, voteDeadline m < block_timestamp e → phase m = Voting →
     ∃ s' m',
       finalizeMilestoneVote i e s = Ok s' ∧
       milestones s' !! N.to_nat i = Some m' ∧ phase m' ≠ Voting ∧
       ∀ t2 s2, evolves (block_timestamp e) s' t2 s2 →
         (∃ m2, milestones s2 !! N.to_nat i = Some m2 ∧ phase m2 = phase m') ∧
         ∀ e2, finalizeMilestoneVote i e2 s2 = Revert VotingNotActive).
Proof.
  intros Hreach Hi.
  pose proof (reachable_invariant t s Hreach) as [_ Hms _ Htally].
  destruct (Htally _ _ Hi) as [Hmax _].
  destruct (Hms _ _ Hi) as (_ & _ & Hclosed).
  split.
  - intros e Hle Hearly.
    assert (Hopen : votingActive m = true).
    { destruct (votingActive m); [done|]. specialize (Hclosed eq_refl). lia. }
    pose proof (finalize_early i e s m Hi Hopen Hearly) as Hfail.
    split; [done|].
    destruct (nonpayable_Revert (finalizeMilestoneVote i) e s _ Hfail)
      as [err Herr].
    by eapply transact_Revert.
  - intros e Hover Hvoting. apply phase_Voting in Hvoting.
    eexists _, _. split; [apply (finalize_returns i e s m); auto; lia|].
    split.
    { simpl. apply list_lookup_insert_eq. by eapply lookup_lt_Some. }
    split.
    { destruct (noVotes m <? yesVotes m); unfold phase; simpl;
        [done | by destruct (approved m)]. }
    intros t2 s2 Hev.
    eapply evolves_milestone_le in Hev as (m2 & Hi2 & Hle2).
    2:{ simpl. apply list_lookup_insert_eq. by eapply lookup_lt_Some. }
    destruct Hle2 as (_ & _ & _ & _ & _ & Hfinal).
    destruct Hfinal as (Hoff & Hsame & _).
    { by destruct (noVotes m <? yesVotes m). }
    split.
    + exists m2. split; [done|]. unfold phase. rewrite Hoff, Hsame.
      by destruct (noVotes m <? yesVotes m).
    + intros e2. by apply (finalize_closed i e2 s2 m2).
Qed.

Lemma finalize_timing_witness :
  let m := mkMilestone "well" 3 174800 6 4 false false true in
  reachable 3100 voted ∧ milestones voted !! N.to_nat 0 = Some m ∧
  ((∀ e, 3100 <= block_timestamp e → block_timestamp e <= voteDeadline m →
      finalizeMilestoneVote 0 e voted = Revert VotingStillActive ∧
      transact e (CFinalizeMilestoneVote 0) voted = voted) ∧
   (∀ e, voteDeadline m < block_timestamp e → phase m = Voting →
      ∃ s' m',
        finalizeMilestoneVote 0 e voted = Ok s' ∧
        milestones s' !! N.to_nat 0 = Some m' ∧ phase m' ≠ Voting ∧
        ∀ t2 s2, evolves (block_timestamp e) s' t2 s2 →
          (∃ m2, milestones s2 !! N.to_nat 0 = Some m2 ∧ phase m2 = phase m') ∧
          ∀ e2, finalizeMilestoneVote 0 e2 s2 = Revert VotingNotActive)).
Proof.
  intros m. split; [apply voted_reachable|]. split; [reflexivity|].
  apply (finalize_timing 3100 voted 0 m);
    [apply voted_reachable | reflexivity].
Defined.

(** ** C7: donations *)

(** C7, as stated, fails: after a donation of [2^256-1], a donation of 1
    before the deadline does not succeed; the checked addition reverts. *)
Lemma donate_overflow :
  reachable 1100 overfull ∧
  msg_value (at_time donor_Y 1 1200) ≠ 0 ∧
  block_timestamp (at_time donor_Y 1 1200) < deadline overfull ∧
  donate (at_time donor_Y 1 1200) overfull = Revert Panic.
Proof.
  split; [apply overfull_reachable|].
  split; [vm_compute; discriminate|]. split; reflexivity.
Qed.

(** C7, amended. On a ledger that adds up (every reachable state, and the
    state in which [donate] runs once the ether of the call has arrived),
    [donate] with [amount = msg.value]:
    - fails with [FundraisingClosed] at or after [deadline];
    - otherwise fails with [InvalidDonationAmount] when [amount] is zero;
    - otherwise reverts on arithmetic overflow when
      [totalDonations + amount] exceeds [2^256-1];
    - otherwise returns, with the donor's balance and [totalDonations] both
      higher by [amount] and every other balance unchanged;
    - returns only in that last case. *)
Theorem donate_spec s e :
  sum_donations s = totalDonations s →
  let amount := msg_value e in
  let donor := msg_sender e in
  (deadline s <= block_timestamp e → donate e s = Revert FundraisingClosed) ∧
  (block_timestamp e < deadline s → amount = 0 →
   donate e s = Revert InvalidDonationAmount) ∧
  (block_timestamp e < deadline s → amount ≠ 0 →
   MAX_UINT256 < totalDonations s + amount → donate e s = Revert Panic) ∧
  (block_timestamp e < deadline s → amount ≠ 0 →
   totalDonations s + amount <= MAX_UINT256 →
   ∃ s', donate e s = Ok s' ∧
     donationOf s' donor = donationOf s donor + amount ∧
     totalDonations s' = totalDonations s + amount ∧
     (∀ b, b ≠ donor → donationOf s' b = donationOf s b)) ∧
  (∀ s', donate e s = Ok s' →
   block_timestamp e < deadline s ∧ amount ≠ 0 ∧
   totalDonations s + amount <= MAX_UINT256).
Proof.
  intros Hsum amount donor.
  pose proof (donation_le_total s donor Hsum) as Hle.
  split_and!.
  - intros Hclosed. unfold donate. by apply N.leb_le in Hclosed as ->.
  - intros Hopen Hzero. unfold donate. apply N.leb_gt in Hopen as ->.
    cbn [bind revert_if]. fold amount. by rewrite Hzero.
  - intros Hopen Hpos Hover. unfold donate, checked_add.
    apply N.leb_gt in Hopen as ->. cbn [bind revert_if]. fold amount donor.
    apply N.eqb_neq in Hpos as ->. cbn [bind revert_if].
    destruct (donationOf s donor + amount <=? MAX_UINT256); [|done].
    cbn [bind]. by apply N.leb_gt in Hover as ->.
  - intros Hopen Hpos Hfit. eexists. split.
    + unfold donate, checked_add.
      apply N.leb_gt in Hopen as ->. cbn [bind revert_if]. fold amount donor.
      apply N.eqb_neq in Hpos as ->. cbn [bind revert_if].
      assert ((donationOf s donor + amount <=? MAX_UINT256) = true) as ->
        by (apply N.leb_le; lia).
      cbn [bind]. apply N.leb_le in Hfit as ->. done.
    + split_and!; try done.
      * unfold donationOf. simpl. by rewrite lookup_insert_eq.
      * intros b Hb. unfold donationOf. simpl. by rewrite lookup_insert_ne.
  - intros s' Hok. apply donate_Ok in Hok as (? & ? & ? & ? & _). done.
Qed.

Lemma donate_spec_witness :
  let s := deployed in
  let e := at_time donor_X 6 1100 in
  let amount := msg_value e in
  let donor := msg_sender e in
  sum_donations s = totalDonations s ∧
  (deadline s <= block_timestamp e → donate e s = Revert FundraisingClosed) ∧
  (block_timestamp e < deadline s → amount = 0 →
   donate e s = Revert InvalidDonationAmount) ∧
  (block_timestamp e < deadline s → amount ≠ 0 →
   MAX_UINT256 < totalDonations s + amount → donate e s = Revert Panic) ∧
  (block_timestamp e < deadline s → amount ≠ 0 →
   totalDonations s + amount <= MAX_UINT256 →
   ∃ s', donate e s = Ok s' ∧
     donationOf s' donor = donationOf s donor + amount ∧
     totalDonations s' = totalDonations s + amount ∧
     (∀ b, b ≠ donor → donationOf s' b = donationOf s b)) ∧
  (∀ s', donate e s = Ok s' →
   block_timestamp e < deadline s ∧ amount ≠ 0 ∧
   totalDonations s + amount <= MAX_UINT256).
Proof.
  intros s e amount donor. split; [reflexivity|].
  apply (donate_spec s e). reflexivity.
Defined.

(** ** C9: creating a milestone *)

(** C9. [createMilestone(description, fundAmount, votingDurationDays)]
    checks, in this order, and fails with
    - [NotOwner] when the caller is not the owner;
    - [EmptyDescription] when the description is empty;
    - [InvalidMilestoneAmount] when [fundAmount] is zero or exceeds the
      balance held by the contract;
    - [InvalidMilestone], the error the contract uses for an invalid voting
      duration, when [votingDurationDays] is zero.
    When it returns it has appended one milestone, in state Voting, with
    [voteDeadline = block.timestamp + votingDurationDays * 1 days], zero
    tallies and [fundsReleased = false], and changed nothing else; it does
    return when the checks pass and the vote deadline fits in a
    [uint256]. *)
Theorem createMilestone_spec d a n e s :
  let created :=
    mkMilestone d a (block_timestamp e + n * days) 0 0 false false true in
  (msg_sender e ≠ owner s → createMilestone d a n e s = Revert NotOwner) ∧
  (msg_sender e = owner s → d = ""%string →
   createMilestone d a n e s = Revert EmptyDescription) ∧
  (msg_sender e = owner s → d ≠ ""%string → a = 0 ∨ balance s < a →
   createMilestone d a n e s = Revert InvalidMilestoneAmount) ∧
  (msg_sender e = owner s → d ≠ ""%string → a ≠ 0 → a <= balance s → n = 0 →
   createMilestone d a n e s = Revert InvalidMilestone) ∧
  (msg_sender e = owner s → d ≠ ""%string → a ≠ 0 → a <= balance s → n ≠ 0 →
   block_timestamp e + n * days <= MAX_UINT256 →
   createMilestone d a n e s = Ok (set_milestones s (milestones s ++ [created]))) ∧
  (∀ s', createMilestone d a n e s = Ok s' →
   s' = set_milestones s (milestones s ++ [created]) ∧
   milestones s' !! length (milestones s) = Some created ∧
   phase created = Voting ∧
   voteDeadline created = block_timestamp e + n * days ∧
   yesVotes created = 0 ∧ noVotes created = 0 ∧
   fundsReleased created = false).
Proof.
  intros created.
  assert (Hlen : d ≠ ""%string → (String.length d =? 0)%nat = false).
  { intros Hd. destruct d; [done|]. done. }
  split_and!.
  - intros Hne. unfold createMilestone, onlyOwner.
    by apply N.eqb_neq in Hne as ->.
  - intros Hown ->. unfold createMilestone, onlyOwner.
    by rewrite Hown, N.eqb_refl.
  - intros Hown Hd Hbad. unfold createMilestone, onlyOwner.
    rewrite Hown, N.eqb_refl. cbn [negb bind revert_if].
    rewrite (Hlen Hd). cbn [bind revert_if].
    assert ((a =? 0) || (balance s <? a) = true) as ->; [|done].
    apply orb_true_iff.
    destruct Hbad as [->|Hlt]; [by left | right; by apply N.ltb_lt].
  - intros Hown Hd Hpos Hheld ->. unfold createMilestone, onlyOwner.
    rewrite Hown, N.eqb_refl. cbn [negb bind revert_if].
    rewrite (Hlen Hd). cbn [bind revert_if].
    apply N.eqb_neq in Hpos as ->. apply N.ltb_ge in Hheld as ->. done.
  - intros Hown Hd Hpos Hheld Hn Hfit.
    unfold createMilestone, onlyOwner, checked_mul, checked_add.
    rewrite Hown, N.eqb_refl. cbn [negb bind revert_if].
    rewrite (Hlen Hd). cbn [bind revert_if].
    apply N.eqb_neq in Hpos as ->. apply N.ltb_ge in Hheld as ->.
    cbn [orb bind revert_if].
    apply N.eqb_neq in Hn as ->. cbn [bind revert_if].
    assert ((n * days <=? MAX_UINT256) = true) as ->
      by (apply N.leb_le; lia).
    cbn [bind]. by apply N.leb_le in Hfit as ->.
  - intros s' Hok. apply createMilestone_Ok in Hok as (_ & _ & _ & _ & _ & _ & ->).
    split_and!; try done.
    simpl. by rewrite lookup_app_r, Nat.sub_diag.
Qed.

(** * Further properties of the contract *)

(** ** The effect of each call that returns *)

Lemma execute_effect e c s s' :
  execute c e s = Ok s' →
  match c with
  | CReceive => False
  | CDonate =>
      block_timestamp e < deadline s ∧ msg_value e ≠ 0 ∧
      totalDonations s + msg_value e <= MAX_UINT256 ∧
      s' = set_ledger (receive_value e s)
             (<[msg_sender e := donationOf s (msg_sender e) + msg_value e]>
                (donations s))
             (totalDonations s + msg_value e)
  | CCreateMilestone d a n =>
      msg_sender e = owner s ∧
      s' = set_milestones s
             (milestones s ++
                [mkMilestone d a (block_timestamp e + n * days) 0 0
                   false false true])
  | CVoteOnMilestone i b =>
      ∃ m, milestones s !! N.to_nat i = Some m ∧
        donationOf s (msg_sender e) ≠ 0 ∧ votingActive m = true ∧
        block_timestamp e <= voteDeadline m ∧
        votedOn s i (msg_sender e) = false ∧
        s' = store_milestone
               (set_hasVoted s (<[(i, msg_sender e) := true]> (hasVoted s))) i
               (if b
                then set_yesVotes m (yesVotes m + donationOf s (msg_sender e))
                else set_noVotes m (noVotes m + donationOf s (msg_sender e)))
  | CFinalizeMilestoneVote i =>
      ∃ m, milestones s !! N.to_nat i = Some m ∧
        votingActive m = true ∧ voteDeadline m < block_timestamp e ∧
        s' = store_milestone s i
               (if noVotes m <? yesVotes m
                then set_approved (set_votingActive m false) true
                else set_votingActive m false)
  | CReleaseMilestoneFunds i =>
      ∃ m, milestones s !! N.to_nat i = Some m ∧
        msg_sender e = owner s ∧ approved m = true ∧
        fundsReleased m = false ∧ fundAmount m <= balance s ∧
        s' = set_balance (store_milestone s i (set_fundsReleased m true))
               (balance s - fundAmount m)
  | CPostUpdate t c =>
      msg_sender e = owner s ∧ t ≠ ""%string ∧
      s' = set_updates s
             (updates s ++ [mkCampaignUpdate t c (block_timestamp e)])
  | CWithdraw =>
      msg_sender e = owner s ∧ balance s ≠ 0 ∧ s' = set_balance s 0
  | CRefund =>
      deadline s <= block_timestamp e ∧
      totalDonations s < fundraisingGoal s ∧
      donationOf s (msg_sender e) ≠ 0 ∧
      donationOf s (msg_sender e) <= totalDonations s ∧
      donationOf s (msg_sender e) <= balance s ∧
      s' = set_balance
             (set_ledger s (<[msg_sender e := 0]> (donations s))
                (totalDonations s - donationOf s (msg_sender e)))
             (balance s - donationOf s (msg_sender e))
  | CEndCampaign =>
      msg_sender e = owner s ∧ s' = set_campaignActive s false
  end.
Proof.
  intros Hrun.
  destruct c; cbn [execute] in Hrun; unfold payable in Hrun;
    [ | | unfold nonpayable in Hrun; apply revert_if_Ok in Hrun as [_ Hrun] ..].
  - discriminate.
  - apply donate_Ok in Hrun as (? & ? & ? & ? & ->). done.
  - apply createMilestone_Ok in Hrun as (? & _ & _ & _ & _ & _ & ->). done.
  - apply voteOnMilestone_Ok in Hrun as (m & ? & ? & ? & ? & ? & _ & ->).
    exists m. done.
  - apply finalizeMilestoneVote_Ok in Hrun as (m & ? & ? & ? & _ & ->).
    exists m. done.
  - apply releaseMilestoneFunds_Ok in Hrun as (m & ? & ? & ? & ? & ? & _ & ->).
    exists m. done.
  - unfold postUpdate, onlyOwner in Hrun. peel Hrun. arith.
    apply Nat.eqb_neq in Hcheck0. injection Hrun as <-.
    split_and!; [done | | done]. by intros ->.
  - apply withdraw_Ok in Hrun as (? & _ & ? & _ & ->). done.
  - apply refund_Ok in Hrun as (? & ? & ? & ? & ? & _ & ->). done.
  - apply endCampaign_Ok in Hrun as [? ->]. done.
Qed.

(** ** Deployment and the campaign parameters *)

(** X1. The constructor checks, in this order: a zero goal fails with
    "Goal must be > 0"; a zero duration fails with "Duration must be > 0";
    a deadline [block.timestamp + _durationDays * 1 days] beyond [2^256-1]
    reverts on overflow. Otherwise the deployment returns: the sender is the
    owner, the deadline lies at least one day after the deployment, the
    campaign is active, and the ledger, the milestones, the updates and the
    vote records are empty. *)
Theorem constructor_spec e g d :
  (g = 0 → constructor e g d = Revert (RequireFailed "Goal must be > 0")) ∧
  (g ≠ 0 → d = 0 →
   constructor e g d = Revert (RequireFailed "Duration must be > 0")) ∧
  (g ≠ 0 → d ≠ 0 → MAX_UINT256 < block_timestamp e + d * days →
   constructor e g d = Revert Panic) ∧
  (g ≠ 0 → d ≠ 0 → block_timestamp e + d * days <= MAX_UINT256 →
   constructor e g d =
     Ok (mkState (msg_sender e) g 0 (block_timestamp e + d * days) true
           ∅ [] [] ∅ 0) ∧
   block_timestamp e + days <= block_timestamp e + d * days).
Proof.
  split_and!.
  - intros ->. reflexivity.
  - intros Hg ->. unfold constructor.
    assert ((0 <? g) = true) as -> by (apply N.ltb_lt; lia). reflexivity.
  - intros Hg Hd Hover. unfold constructor, checked_mul, checked_add.
    assert ((0 <? g) = true) as -> by (apply N.ltb_lt; lia).
    assert ((0 <? d) = true) as -> by (apply N.ltb_lt; lia).
    cbn [negb bind revert_if].
    destruct (d * days <=? MAX_UINT256); [|done]. cbn [bind].
    by apply N.leb_gt in Hover as ->.
  - intros Hg Hd Hfit.
    assert (Hday : days <= d * days) by (unfold days; lia).
    split; [|lia].
    unfold constructor, checked_mul, checked_add.
    assert ((0 <? g) = true) as -> by (apply N.ltb_lt; lia).
    assert ((0 <? d) = true) as -> by (apply N.ltb_lt; lia).
    cbn [negb bind revert_if].
    assert ((d * days <=? MAX_UINT256) = true) as ->
      by (apply N.leb_le; lia).
    cbn [bind]. apply N.leb_le in Hfit as ->. cbn [bind].
    assert ((block_timestamp e <? block_timestamp e + d * days) = true) as ->
      by (apply N.ltb_lt; unfold days in *; lia).
    reflexivity.
Qed.

Lemma execute_parameters e c s s' :
  execute c e s = Ok s' →
  owner s' = owner s ∧ fundraisingGoal s' = fundraisingGoal s ∧
  deadline s' = deadline s.
Proof.
  intros Hrun. apply execute_effect in Hrun.
  destruct c; try done.
  - by destruct Hrun as (_ & _ & _ & ->).
  - by destruct Hrun as (_ & ->).
  - by destruct Hrun as (m & _ & _ & _ & _ & _ & ->).
  - by destruct Hrun as (m & _ & _ & _ & ->).
  - by destruct Hrun as (m & _ & _ & _ & _ & _ & ->).
  - by destruct Hrun as (_ & _ & ->).
  - by destruct Hrun as (_ & _ & ->).
  - by destruct Hrun as (_ & _ & _ & _ & _ & ->).
  - by destruct Hrun as (_ & ->).
Qed.

Lemma evolves_parameters t s t' s' :
  evolves t s t' s' →
  owner s' = owner s ∧ fundraisingGoal s' = fundraisingGoal s ∧
  deadline s' = deadline s.
Proof.
  induction 1 as [|t' s' e c Hev IH Hle]; [done|].
  unfold transact. destruct (execute c e s') as [s2|err] eqn:Hrun; [|done].
  apply execute_parameters in Hrun as (-> & -> & ->). done.
Qed.

(** X2. The owner, the goal and the deadline are those of the deployment in
    every later state, whatever calls are made: the owner is the deployer,
    the goal is positive and the deadline is after the deployment time. *)
Theorem parameters_fixed e0 g d s0 t s :
  constructor e0 g d = Ok s0 → evolves (block_timestamp e0) s0 t s →
  owner s = msg_sender e0 ∧ fundraisingGoal s = g ∧ 0 < g ∧
  deadline s = block_timestamp e0 + d * days ∧
  block_timestamp e0 < deadline s.
Proof.
  intros Hinit Hev.
  apply evolves_parameters in Hev as (-> & -> & ->).
  unfold constructor in Hinit. peel Hinit. arith. injection Hinit as <-.
  simpl. split_and!; done.
Qed.

Ltac advance t' :=
  match goal with
  | |- evolves ?t0 ?s0 _ (transact ?e ?c ?s) =>
      apply (evolves_call t0 s0 t' s e c); [ | vm_compute; discriminate]
  end.

Lemma deployed_to_released : evolves 1000 deployed 174900 released.
Proof.
  unfold released, finalized, voted, proposed, funded.
  advance 174801. advance 3100. advance 3000. advance 2000. advance 1200.
  advance 1100. advance 1000. apply evolves_here.
Qed.

Lemma parameters_fixed_witness :
  constructor (at_time the_owner 0 1000) 10 1 = Ok deployed ∧
  evolves 1000 deployed 174900 released ∧
  owner released = the_owner ∧ fundraisingGoal released = 10 ∧ 0 < 10 ∧
  deadline released = 1000 + 1 * days ∧ 1000 < deadline released.
Proof.
  split; [reflexivity|]. split; [apply deployed_to_released|].
  apply (parameters_fixed (at_time the_owner 0 1000) 10 1 deployed 174900
           released); [reflexivity | apply deployed_to_released].
Defined.

(** ** Progress and time left *)

(** X3. With a positive goal (every deployed campaign), [progressPercentage]
    reverts on overflow when [totalDonations * 100] exceeds [2^256-1] and
    otherwise returns [totalDonations * 100 / fundraisingGoal] rounded down.
    The result is not capped: it is at least 100 exactly when the goal is
    met, which is the goal test of [withdraw] and the negation of the goal
    test of [refund]. *)
Theorem progressPercentage_spec s :
  0 < fundraisingGoal s →
  (MAX_UINT256 < totalDonations s * 100 →
   progressPercentage s = Revert Panic) ∧
  (totalDonations s * 100 <= MAX_UINT256 →
   ∃ p, progressPercentage s = Ok p ∧
     p * fundraisingGoal s <= totalDonations s * 100 ∧
     totalDonations s * 100 < (p + 1) * fundraisingGoal s ∧
     (100 <= p ↔ fundraisingGoal s <= totalDonations s) ∧
     (p < 100 ↔ totalDonations s < fundraisingGoal s)).
Proof.
  intros Hgoal. unfold progressPercentage, checked_mul.
  assert ((fundraisingGoal s =? 0) = false) as -> by (apply N.eqb_neq; lia).
  split.
  - intros Hover. by apply N.leb_gt in Hover as ->.
  - intros Hfit. apply N.leb_le in Hfit as ->. cbn [bind].
    set (g := fundraisingGoal s) in *. set (n := totalDonations s * 100).
    exists (n / g).
    assert (Hdiv : n = g * (n / g) + n mod g) by (apply N.div_mod; lia).
    assert (Hmod : n mod g < g) by (apply N.mod_lt; lia).
    assert (Hiff : 100 <= n / g ↔ g <= totalDonations s).
    { split.
      - intros Hp.
        assert (g * 100 <= g * (n / g)) by (by apply N.mul_le_mono_l).
        revert Hdiv H. clear Hmod Hp. generalize (n / g) (n mod g).
        intros q r Hdiv H. subst n. lia.
      - intros Hmet. apply N.div_le_lower_bound; [lia|].
        clear Hdiv Hmod. subst n. lia. }
    assert (Hnot : n / g < 100 ↔ totalDonations s < g) by (clear Hdiv Hmod; lia).
    revert Hdiv Hmod Hiff Hnot. generalize (n / g) (n mod g).
    intros q r Hdiv Hmod Hiff Hnot. split_and!; [done | lia | lia | done | done].
Qed.

Lemma progressPercentage_spec_witness :
  0 < fundraisingGoal underfunded ∧
  (MAX_UINT256 < totalDonations underfunded * 100 →
   progressPercentage underfunded = Revert Panic) ∧
  (totalDonations underfunded * 100 <= MAX_UINT256 →
   ∃ p, progressPercentage underfunded = Ok p ∧
     p * fundraisingGoal underfunded <= totalDonations underfunded * 100 ∧
     totalDonations underfunded * 100 < (p + 1) * fundraisingGoal underfunded ∧
     (100 <= p ↔ fundraisingGoal underfunded <= totalDonations underfunded) ∧
     (p < 100 ↔ totalDonations underfunded < fundraisingGoal underfunded)).
Proof.
  split; [reflexivity|].
  apply (progressPercentage_spec underfunded). reflexivity.
Defined.

(** X4. [timeRemaining] never reverts. It returns the seconds up to the
    deadline, and returns zero exactly when [donate] is closed, that is when
    [donate] fails with [FundraisingClosed]. *)
Theorem timeRemaining_spec e s :
  ∃ r, timeRemaining e s = Ok r ∧
    r = deadline s - block_timestamp e ∧
    (block_timestamp e < deadline s → block_timestamp e + r = deadline s) ∧
    (r = 0 ↔ deadline s <= block_timestamp e) ∧
    (r = 0 ↔ donate e s = Revert FundraisingClosed).
Proof.
  unfold timeRemaining, checked_sub.
  destruct (block_timestamp e <? deadline s) eqn:Hopen; arith.
  - assert ((block_timestamp e <=? deadline s) = true) as ->
      by (apply N.leb_le; lia).
    eexists. split; [done|]. split_and!; [done | lia | lia |].
    split; [lia|]. unfold donate.
    assert ((deadline s <=? block_timestamp e) = false) as ->
      by (apply N.leb_gt; lia).
    cbn [bind revert_if]. intros Hclosed. exfalso.
    destruct (msg_value e =? 0); cbn [bind revert_if] in Hclosed;
      [discriminate|].
    unfold checked_add in Hclosed.
    destruct (donationOf s (msg_sender e) + msg_value e <=? MAX_UINT256);
      cbn [bind] in Hclosed; [|discriminate].
    destruct (totalDonations s + msg_value e <=? MAX_UINT256);
      cbn [bind] in Hclosed; discriminate.
  - exists 0. split; [done|]. split_and!; [lia | lia | done |].
    split; [|done]. intros _. unfold donate.
    by apply N.leb_le in Hopen as ->.
Qed.

(** ** Voting *)

(** A donor who has not voted on a milestone counts in its pending weight. *)
Lemma pending_weight_ge s i a :
  votedOn s i a = false → donationOf s a <= pending_weight s i.
Proof.
  intros Hnew. unfold donationOf, pending_weight.
  destruct (donations s !! a) as [v|] eqn:Ha; simpl; [|lia].
  pose proof (msum_ge (λ c w, if votedOn s i c then 0 else w)
                (donations s) a v Ha) as Hge.
  simpl in Hge. by rewrite Hnew in Hge.
Qed.

(** X5. In every reachable state, [voteOnMilestone(i, approve)] of a sender
    with balance [w] fails with [OnlyDonorsCanVote] when [w] is zero, then
    with [InvalidMilestone] when [i] is out of range, then with
    [VotingNotActive] when the vote is closed or its deadline has passed,
    then with [AlreadyVoted] when the sender has voted on [i]. In every
    other case it returns (the tally cannot overflow): [w] is added to
    [yesVotes] or to [noVotes] of milestone [i] according to [approve], the
    sender is recorded as having voted, and the ledger, the held balance and
    the other milestones are as before. *)
Theorem voteOnMilestone_spec t s i b e :
  reachable t s →
  let w := donationOf s (msg_sender e) in
  (w = 0 → voteOnMilestone i b e s = Revert OnlyDonorsCanVote) ∧
  (w ≠ 0 → milestones s !! N.to_nat i = None →
   voteOnMilestone i b e s = Revert InvalidMilestone) ∧
  (∀ m, w ≠ 0 → milestones s !! N.to_nat i = Some m →
     (votingActive m = false ∨ voteDeadline m < block_timestamp e →
      voteOnMilestone i b e s = Revert VotingNotActive) ∧
     (votingActive m = true → block_timestamp e <= voteDeadline m →
      votedOn s i (msg_sender e) = true →
      voteOnMilestone i b e s = Revert AlreadyVoted) ∧
     (votingActive m = true → block_timestamp e <= voteDeadline m →
      votedOn s i (msg_sender e) = false →
      ∃ s' m',
        voteOnMilestone i b e s = Ok s' ∧
        milestones s' !! N.to_nat i = Some m' ∧
        yesVotes m' = yesVotes m + (if b then w else 0) ∧
        noVotes m' = noVotes m + (if b then 0 else w) ∧
        phase m' = Voting ∧ fundAmount m' = fundAmount m ∧
        voteDeadline m' = voteDeadline m ∧
        votedOn s' i (msg_sender e) = true ∧
        donations s' = donations s ∧
        totalDonations s' = totalDonations s ∧
        balance s' = balance s ∧
        (∀ j, j ≠ N.to_nat i → milestones s' !! j = milestones s !! j))).
Proof.
  intros Hreach w.
  pose proof (reachable_invariant t s Hreach) as [_ _ _ Htally].
  split_and!.
  - intros Hzero. unfold voteOnMilestone, onlyDonor. fold w.
    by rewrite Hzero.
  - intros Hpos Hnone. unfold voteOnMilestone, onlyDonor, milestoneAt. fold w.
    apply N.eqb_neq in Hpos as ->. cbn [bind revert_if]. by rewrite Hnone.
  - intros m Hpos Hi.
    unfold voteOnMilestone, onlyDonor, milestoneAt. fold w.
    apply N.eqb_neq in Hpos as Hposb. rewrite Hposb, Hi.
    cbn [bind revert_if].
    split_and!.
    + intros [Hoff | Hlate].
      * by rewrite Hoff.
      * destruct (votingActive m); cbn [negb bind revert_if]; [|done].
        by apply N.ltb_lt in Hlate as ->.
    + intros Hon Hearly Hvoted. rewrite Hon. cbn [negb bind revert_if].
      apply N.ltb_ge in Hearly as ->. cbn [bind revert_if].
      by rewrite Hvoted.
    + intros Hon Hearly Hnew. rewrite Hon. cbn [negb bind revert_if].
      apply N.ltb_ge in Hearly as ->. cbn [bind revert_if].
      rewrite Hnew. cbn [bind revert_if].
      destruct (Htally _ _ Hi) as [Hmax _].
      pose proof (pending_weight_ge s i (msg_sender e) Hnew) as Hge.
      fold w in Hge.
      assert (Hlen : (N.to_nat i < length (milestones s))%nat)
        by (by eapply lookup_lt_Some).
      unfold checked_add. destruct b.
      * assert ((yesVotes m + w <=? MAX_UINT256) = true) as ->
          by (apply N.leb_le; lia).
        cbn [bind]. eexists _, _. split; [done|].
        split; [simpl; by apply list_lookup_insert_eq|].
        unfold phase, votedOn. simpl. rewrite lookup_insert_eq. simpl.
        rewrite Hon. split_and!; try done; try lia.
        intros j Hj. by rewrite list_lookup_insert_ne.
      * assert ((noVotes m + w <=? MAX_UINT256) = true) as ->
          by (apply N.leb_le; lia).
        cbn [bind]. eexists _, _. split; [done|].
        split; [simpl; by apply list_lookup_insert_eq|].
        unfold phase, votedOn. simpl. rewrite lookup_insert_eq. simpl.
        rewrite Hon. split_and!; try done; try lia.
        intros j Hj. by rewrite list_lookup_insert_ne.
Qed.

Lemma voteOnMilestone_spec_witness :
  let s := proposed in
  let e := at_time donor_X 0 3000 in
  let i := 0 in
  let b := true in
  let w := donationOf s (msg_sender e) in
  reachable 2000 s ∧
  (w = 0 → voteOnMilestone i b e s = Revert OnlyDonorsCanVote) ∧
  (w ≠ 0 → milestones s !! N.to_nat i = None →
   voteOnMilestone i b e s = Revert InvalidMilestone) ∧
  (∀ m, w ≠ 0 → milestones s !! N.to_nat i = Some m →
     (votingActive m = false ∨ voteDeadline m < block_timestamp e →
      voteOnMilestone i b e s = Revert VotingNotActive) ∧
     (votingActive m = true → block_timestamp e <= voteDeadline m →
      votedOn s i (msg_sender e) = true →
      voteOnMilestone i b e s = Revert AlreadyVoted) ∧
     (votingActive m = true → block_timestamp e <= voteDeadline m →
      votedOn s i (msg_sender e) = false →
      ∃ s' m',
        voteOnMilestone i b e s = Ok s' ∧
        milestones s' !! N.to_nat i = Some m' ∧
        yesVotes m' = yesVotes m + (if b then w else 0) ∧
        noVotes m' = noVotes m + (if b then 0 else w) ∧
        phase m' = Voting ∧ fundAmount m' = fundAmount m ∧
        voteDeadline m' = voteDeadline m ∧
        votedOn s' i (msg_sender e) = true ∧
        donations s' = donations s ∧
        totalDonations s' = totalDonations s ∧
        balance s' = balance s ∧
        (∀ j, j ≠ N.to_nat i → milestones s' !! j = milestones s !! j))).
Proof.
  intros s e i b w. split; [apply proposed_reachable|].
  apply (voteOnMilestone_spec 2000 s i b e). apply proposed_reachable.
Defined.

(** X6. In every reachable state, the weight cast on a milestone together
    with the balances of the donors who have not voted on it fits in a
    [uint256], so neither [yesVotes + noVotes] nor a further vote can
    overflow; and as long as donations are open (before the deadline) the
    weight cast on a milestone is at most [totalDonations]. *)
Theorem tally_within_ledger t s i m :
  reachable t s → milestones s !! N.to_nat i = Some m →
  yesVotes m + noVotes m + pending_weight s i <= MAX_UINT256 ∧
  yesVotes m + noVotes m <= MAX_UINT256 ∧
  (t < deadline s →
   yesVotes m + noVotes m + pending_weight s i <= totalDonations s ∧
   yesVotes m <= totalDonations s ∧ noVotes m <= totalDonations s).
Proof.
  intros Hreach Hi.
  pose proof (reachable_invariant t s Hreach) as [_ _ _ Htally].
  destruct (Htally _ _ Hi) as [Hmax Hopen].
  split_and!; [done | lia |]. intros Hbefore. specialize (Hopen Hbefore). lia.
Qed.

Lemma tally_within_ledger_witness :
  let m := mkMilestone "well" 3 174800 6 4 false false true in
  reachable 3100 voted ∧ milestones voted !! N.to_nat 0 = Some m ∧
  yesVotes m + noVotes m + pending_weight voted 0 <= MAX_UINT256 ∧
  yesVotes m + noVotes m <= MAX_UINT256 ∧
  (3100 < deadline voted →
   yesVotes m + noVotes m + pending_weight voted 0 <= totalDonations voted ∧
   yesVotes m <= totalDonations voted ∧ noVotes m <= totalDonations voted).
Proof.
  intros m. split; [apply voted_reachable|]. split; [reflexivity|].
  apply (tally_within_ledger 3100 voted 0 m);
    [apply voted_reachable | reflexivity].
Defined.

(** ** Releasing the funds of a milestone *)

(** A single [releaseMilestoneFunds(i)] call, whose recipient only accepts
    or refuses the payment: the checks in their order, and the effect of a
    call that returns. *)
Lemma releaseMilestoneFunds_single i e s :
  (msg_sender e ≠ owner s → releaseMilestoneFunds i e s = Revert NotOwner) ∧
  (msg_sender e = owner s → milestones s !! N.to_nat i = None →
   releaseMilestoneFunds i e s = Revert InvalidMilestone) ∧
  (∀ m, msg_sender e = owner s → milestones s !! N.to_nat i = Some m →
     (approved m = false →
      releaseMilestoneFunds i e s = Revert MilestoneNotApproved) ∧
     (approved m = true → fundsReleased m = true →
      releaseMilestoneFunds i e s = Revert FundsAlreadyReleased) ∧
     (approved m = true → fundsReleased m = false →
      balance s < fundAmount m →
      releaseMilestoneFunds i e s = Revert InsufficientContractBalance) ∧
     (approved m = true → fundsReleased m = false →
      fundAmount m <= balance s → callee_accepts e = false →
      releaseMilestoneFunds i e s = Revert TransferFailed) ∧
     (approved m = true → fundsReleased m = false →
      fundAmount m <= balance s → callee_accepts e = true →
      ∃ s', releaseMilestoneFunds i e s = Ok s' ∧
        milestones s' !! N.to_nat i = Some (set_fundsReleased m true) ∧
        balance s' = balance s - fundAmount m ∧
        donations s' = donations s ∧
        totalDonations s' = totalDonations s ∧
        hasVoted s' = hasVoted s ∧
        (∀ j, j ≠ N.to_nat i → milestones s' !! j = milestones s !! j))).
Proof.
  split_and!.
  - intros Hne. unfold releaseMilestoneFunds, onlyOwner.
    by apply N.eqb_neq in Hne as ->.
  - intros Hown Hnone. unfold releaseMilestoneFunds, onlyOwner, milestoneAt.
    rewrite Hown, N.eqb_refl, Hnone. done.
  - intros m Hown Hi. unfold releaseMilestoneFunds, onlyOwner, milestoneAt.
    rewrite Hown, N.eqb_refl, Hi. cbn [negb bind revert_if].
    assert (Hlen : (N.to_nat i < length (milestones s))%nat)
      by (by eapply lookup_lt_Some).
    split_and!.
    + by intros ->.
    + by intros -> ->.
    + intros -> -> Hshort. cbn [negb bind revert_if].
      by apply N.ltb_lt in Hshort as ->.
    + intros -> -> Hheld Hrefuse. cbn [negb bind revert_if].
      apply N.ltb_ge in Hheld as ->. cbn [bind revert_if].
      unfold call_value. by rewrite Hrefuse.
    + intros -> -> Hheld Hacc. cbn [negb bind revert_if].
      pose proof Hheld as Hheld'.
      apply N.ltb_ge in Hheld as ->. cbn [bind revert_if].
      unfold call_value. rewrite Hacc. simpl.
      apply N.leb_le in Hheld' as ->. simpl.
      eexists. split; [done|]. simpl.
      split_and!; try done.
      * by apply list_lookup_insert_eq.
      * intros j Hj. by rewrite list_lookup_insert_ne.
Qed.

(** ** The vote percentage *)

(** X8. [getMilestoneVotePercentage(i)] fails with [InvalidMilestone] for an
    index out of range and returns 0 for a milestone without votes. For a
    milestone with votes it reverts on overflow when [yesVotes * 100]
    exceeds [2^256-1], and otherwise returns [yesVotes * 100 / total]
    rounded down: a value of at most 100, which is 100 exactly when there
    are no votes against, and at least 50 whenever the votes in favour
    outweigh the votes against (the approval rule of
    [finalizeMilestoneVote]). *)
Theorem getMilestoneVotePercentage_spec i s :
  (milestones s !! N.to_nat i = None →
   getMilestoneVotePercentage i s = Revert InvalidMilestone) ∧
  (∀ m, milestones s !! N.to_nat i = Some m →
     yesVotes m + noVotes m <= MAX_UINT256 →
     (yesVotes m + noVotes m = 0 → getMilestoneVotePercentage i s = Ok 0) ∧
     (yesVotes m + noVotes m ≠ 0 → MAX_UINT256 < yesVotes m * 100 →
      getMilestoneVotePercentage i s = Revert Panic) ∧
     (yesVotes m + noVotes m ≠ 0 → yesVotes m * 100 <= MAX_UINT256 →
      ∃ p, getMilestoneVotePercentage i s = Ok p ∧
        p = yesVotes m * 100 / (yesVotes m + noVotes m) ∧
        p <= 100 ∧
        (p = 100 ↔ noVotes m = 0) ∧
        (noVotes m < yesVotes m → 50 <= p))).
Proof.
  split.
  - intros Hnone. unfold getMilestoneVotePercentage, milestoneAt.
    by rewrite Hnone.
  - intros m Hi Hfit. unfold getMilestoneVotePercentage, milestoneAt.
    rewrite Hi. cbn [bind]. unfold checked_add, checked_mul.
    apply N.leb_le in Hfit as ->. cbn [bind].
    split_and!.
    + by intros ->.
    + intros Hpos Hover. apply N.eqb_neq in Hpos as ->.
      by apply N.leb_gt in Hover as ->.
    + intros Hpos Hscaled. apply N.eqb_neq in Hpos as Hposb. rewrite Hposb.
      apply N.leb_le in Hscaled as ->. cbn [bind].
      eexists. split; [done|]. split; [done|].
      set (y := yesVotes m) in *. set (n := noVotes m) in *.
      assert (Hle : y * 100 / (y + n) <= 100).
      { apply N.Div0.div_le_upper_bound. lia. }
      assert (Hfull : y * 100 / (y + n) = 100 ↔ n = 0).
      { split.
        - intros Hp.
          assert (Hlow : (y + n) * (y * 100 / (y + n)) <= y * 100)
            by apply N.Div0.mul_div_le.
          rewrite Hp in Hlow. lia.
        - intros ->. rewrite N.add_0_r, N.mul_comm. apply N.div_mul. lia. }
      assert (Hhalf : n < y → 50 <= y * 100 / (y + n)).
      { intros Hmaj. apply N.div_le_lower_bound; lia. }
      done.
Qed.

Lemma getMilestoneVotePercentage_spec_witness :
  let m := mkMilestone "well" 3 174800 6 4 false false true in
  milestones voted !! N.to_nat 0 = Some m ∧
  yesVotes m + noVotes m <= MAX_UINT256 ∧
  getMilestoneVotePercentage 0 voted = Ok 60 ∧
  ∃ p, getMilestoneVotePercentage 0 voted = Ok p ∧
    p = yesVotes m * 100 / (yesVotes m + noVotes m) ∧
    p <= 100 ∧
    (p = 100 ↔ noVotes m = 0) ∧
    (noVotes m < yesVotes m → 50 <= p).
Proof.
  intros m. split; [reflexivity|]. split; [vm_compute; discriminate|].
  split; [reflexivity|].
  apply (proj2 (getMilestoneVotePercentage_spec 0 voted) m).
  - reflexivity.
  - vm_compute. discriminate.
  - vm_compute. discriminate.
  - vm_compute. discriminate.
Defined.

(** ** The milestone list and its views *)

Lemma getMilestone_lookup i s m :
  milestones s !! N.to_nat i = Some m →
  getMilestone i s =
    Ok (description m, fundAmount m, voteDeadline m, yesVotes m, noVotes m,
        approved m, fundsReleased m, votingActive m).
Proof. intros Hi. unfold getMilestone, milestoneAt. by rewrite Hi. Qed.



(** X10. In every reachable state a recorded vote refers to an existing
    milestone: when [hasUserVoted(i, a)] is true, [i] is below
    [getMilestoneCount()] and [getMilestone(i)] returns. *)
Theorem voted_milestone_exists t s i a :
  reachable t s → hasUserVoted i a s = true →
  i < getMilestoneCount s ∧ ∃ r, getMilestone i s = Ok r.
Proof.
  intros Hreach Hv.
  pose proof (reachable_invariant t s Hreach) as [_ _ Hvotes _].
  specialize (Hvotes i a Hv). split.
  - unfold getMilestoneCount. lia.
  - destruct (lookup_lt_is_Some_2 (milestones s) (N.to_nat i) Hvotes)
      as [m Hi].
    rewrite (getMilestone_lookup i s m Hi). eauto.
Qed.

Lemma voted_milestone_exists_witness :
  reachable 3100 voted ∧ hasUserVoted 0 donor_Y voted = true ∧
  0 < getMilestoneCount voted ∧ ∃ r, getMilestone 0 voted = Ok r.
Proof.
  split; [apply voted_reachable|]. split; [reflexivity|].
  apply (voted_milestone_exists 3100 voted 0 donor_Y);
    [apply voted_reachable | reflexivity].
Defined.

(** ** Campaign updates *)

(** X11. [postUpdate(title, content)] fails with [NotOwner] for a caller
    other than the owner and with [EmptyDescription] for an empty title;
    otherwise it returns, raises [getUpdateCount()] by one, makes
    [getUpdate] at the old count return the title, the content and the block
    timestamp, and leaves the earlier updates and the rest of the storage as
    they were. [getUpdate] fails with "Invalid update ID" from the count
    on. *)
Theorem postUpdate_spec tl c e s :
  (msg_sender e ≠ owner s → postUpdate tl c e s = Revert NotOwner) ∧
  (msg_sender e = owner s → tl = ""%string →
   postUpdate tl c e s = Revert EmptyDescription) ∧
  (msg_sender e = owner s → tl ≠ ""%string →
   ∃ s', postUpdate tl c e s = Ok s' ∧
     getUpdateCount s' = getUpdateCount s + 1 ∧
     getUpdate (getUpdateCount s) s' = Ok (tl, c, block_timestamp e) ∧
     (∀ i, i < getUpdateCount s → getUpdate i s' = getUpdate i s) ∧
     (∀ i, getUpdateCount s' <= i →
        getUpdate i s' = Revert (RequireFailed "Invalid update ID")) ∧
     s' = set_updates s (updates s')).
Proof.
  split_and!.
  - intros Hne. unfold postUpdate, onlyOwner.
    by apply N.eqb_neq in Hne as ->.
  - intros Hown ->. unfold postUpdate, onlyOwner.
    by rewrite Hown, N.eqb_refl.
  - intros Hown Htl. unfold postUpdate, onlyOwner.
    rewrite Hown, N.eqb_refl. cbn [negb bind revert_if].
    assert ((String.length tl =? 0)%nat = false) as -> by (by destruct tl).
    cbn [bind revert_if]. eexists. split; [done|].
    unfold getUpdateCount, getUpdate. simpl. split_and!.
    + rewrite length_app. simpl. lia.
    + rewrite Nat2N.id. by rewrite lookup_app_r, Nat.sub_diag.
    + intros i Hi. rewrite lookup_app_l by lia. done.
    + intros i Hi. rewrite lookup_ge_None_2; [done|].
      rewrite length_app in *. simpl in *. lia.
    + done.
Qed.







(** * Payments that call back *)

(** ** A call with callbacks is a sequence of calls without *)

Lemma reentrant_call_value_answer e s v :
  Reentrant.call_value (block_timestamp e) (answer e) s v = call_value e s v.
Proof.
  unfold Reentrant.call_value, call_value, answer.
  destruct (callee_accepts e), (v <=? balance s); done.
Qed.

(** What a paying function does is what it does when the payment is simply
    taken, followed by what the recipient's code does. *)
Lemma reentrant_withdraw_factors now r e s :
  Reentrant.withdraw (Reentrant.call_value now r) e s =
    match withdraw (accepting e) s with
    | Ok mid =>
        match Reentrant.react now r mid with
        | Some s' => Ok s'
        | None => Revert TransferFailed
        end
    | Revert err => Revert err
    end.
Proof.
  unfold Reentrant.withdraw, withdraw, Reentrant.call_value, call_value,
    onlyOwner, accepting. simpl.
  destruct (negb (msg_sender e =? owner s)); simpl; [done|].
  destruct (negb ((deadline s <=? block_timestamp e)
                  || (fundraisingGoal s <=? totalDonations s))); simpl; [done|].
  destruct (balance s =? 0); simpl; [done|].
  by rewrite N.leb_refl.
Qed.

Lemma reentrant_refund_factors now r e s :
  Reentrant.refund (Reentrant.call_value now r) e s =
    match refund (accepting e) s with
    | Ok mid =>
        match Reentrant.react now r mid with
        | Some s' => Ok s'
        | None => Revert TransferFailed
        end
    | Revert err => Revert err
    end.
Proof.
  unfold Reentrant.refund, refund, Reentrant.call_value, call_value,
    checked_sub, accepting. simpl.
  destruct (negb ((deadline s <=? block_timestamp e)
                  && (totalDonations s <? fundraisingGoal s))); simpl; [done|].
  destruct (donationOf s (msg_sender e) =? 0); simpl; [done|].
  destruct (donationOf s (msg_sender e) <=? totalDonations s); simpl; [|done].
  by destruct (donationOf s (msg_sender e) <=? balance s).
Qed.

Lemma reentrant_release_factors now r i e s :
  Reentrant.releaseMilestoneFunds (Reentrant.call_value now r) i e s =
    match releaseMilestoneFunds i (accepting e) s with
    | Ok mid =>
        match Reentrant.react now r mid with
        | Some s' => Ok s'
        | None => Revert TransferFailed
        end
    | Revert err => Revert err
    end.
Proof.
  unfold Reentrant.releaseMilestoneFunds, releaseMilestoneFunds,
    Reentrant.call_value, call_value, onlyOwner, milestoneAt, accepting. simpl.
  destruct (negb (msg_sender e =? owner s)); simpl; [done|].
  destruct (milestones s !! N.to_nat i) as [m|]; simpl; [|done].
  destruct (negb (approved m)); simpl; [done|].
  destruct (fundsReleased m); simpl; [done|].
  destruct (balance s <? fundAmount m) eqn:Hheld; simpl; [done|].
  apply N.ltb_ge in Hheld. by apply N.leb_le in Hheld as ->.
Qed.

Lemma reentrant_execute_factors now r c e s :
  Reentrant.execute (Reentrant.call_value now r) c e s =
    match execute c (accepting e) s with
    | Ok mid =>
        if pays c
        then match Reentrant.react now r mid with
             | Some s' => Ok s'
             | None => Revert TransferFailed
             end
        else Ok mid
    | Revert err => Revert err
    end.
Proof.
  destruct c; simpl; unfold payable, nonpayable; simpl.
  - done.
  - change (receive_value (accepting e) s) with (receive_value e s).
    change (donate (accepting e)) with (donate e).
    by destruct (donate e (receive_value e s)).
  - destruct (negb (msg_value e =? 0)); simpl; [done|].
    change (createMilestone _description _fundAmount _votingDurationDays
              (accepting e) s)
      with (createMilestone _description _fundAmount _votingDurationDays e s).
    by destruct (createMilestone _ _ _ e s).
  - destruct (negb (msg_value e =? 0)); simpl; [done|].
    change (voteOnMilestone _milestoneId _approve (accepting e) s)
      with (voteOnMilestone _milestoneId _approve e s).
    by destruct (voteOnMilestone _ _ e s).
  - destruct (negb (msg_value e =? 0)); simpl; [done|].
    change (finalizeMilestoneVote _milestoneId (accepting e) s)
      with (finalizeMilestoneVote _milestoneId e s).
    by destruct (finalizeMilestoneVote _ e s).
  - destruct (negb (msg_value e =? 0)); simpl; [done|].
    apply reentrant_release_factors.
  - destruct (negb (msg_value e =? 0)); simpl; [done|].
    change (postUpdate _title _contentHash (accepting e) s)
      with (postUpdate _title _contentHash e s).
    by destruct (postUpdate _ _ e s).
  - destruct (negb (msg_value e =? 0)); simpl; [done|].
    apply reentrant_withdraw_factors.
  - destruct (negb (msg_value e =? 0)); simpl; [done|].
    apply reentrant_refund_factors.
  - destruct (negb (msg_value e =? 0)); simpl; [done|].
    change (endCampaign (accepting e) s) with (endCampaign e s).
    by destruct (endCampaign e s).
Qed.

Lemma react_evolves now r :
  ∀ s s', Reentrant.react now r s = Some s' → evolves now s now s'.
Proof.
  induction r as [| |who value inner IHinner c rest IHrest]; intros s s' Hr.
  - discriminate.
  - injection Hr as <-. apply evolves_here.
  - simpl in Hr.
    change (λ (s1 : State) (v : N),
              if v <=? balance s1
              then Reentrant.react now inner (set_balance s1 (balance s1 - v))
              else None)
      with (Reentrant.call_value now inner) in Hr.
    unfold Reentrant.transact in Hr.
    rewrite reentrant_execute_factors in Hr.
    set (e := mkEnv who value now true) in *.
    change (accepting e) with e in Hr.
    destruct (execute c e s) as [mid|err] eqn:Hrun; [|by apply IHrest].
    assert (Hstep : evolves now s now mid).
    { assert (Hmid : mid = transact e c s) by (unfold transact; by rewrite Hrun).
      rewrite Hmid. apply (evolves_call now s now s e c);
        [apply evolves_here | simpl; lia]. }
    destruct (pays c).
    + destruct (Reentrant.react now inner mid) as [s1|] eqn:Hinner;
        [|by apply IHrest].
      eapply evolves_trans; [|by apply IHrest].
      eapply evolves_trans; [exact Hstep | by apply IHinner].
    + eapply evolves_trans; [exact Hstep | by apply IHrest].
Qed.

(** A transaction whose payments call back leads where a sequence of calls
    without callbacks leads: every state it can produce is reachable, and
    has all the properties of reachable states. *)
Lemma reentrant_transact_evolves t r e c s :
  t <= block_timestamp e →
  evolves t s (block_timestamp e)
    (Reentrant.transact (Reentrant.call_value (block_timestamp e) r) e c s).
Proof.
  intros Hle.
  assert (Hidle : evolves t s (block_timestamp e) s).
  { change s with (transact e CReceive s) at 2.
    by apply (evolves_call t s t s e CReceive); [apply evolves_here|]. }
  unfold Reentrant.transact. rewrite reentrant_execute_factors.
  destruct (execute c (accepting e) s) as [mid|err] eqn:Hrun; [|done].
  assert (Hstep : evolves t s (block_timestamp e) mid).
  { assert (Hmid : mid = transact (accepting e) c s)
      by (unfold transact; by rewrite Hrun).
    rewrite Hmid.
    by apply (evolves_call t s t s (accepting e) c); [apply evolves_here|]. }
  destruct (pays c); [|done].
  destruct (Reentrant.react (block_timestamp e) r mid) as [s'|] eqn:Hr; [|done].
  eapply evolves_trans; [exact Hstep|].
  by apply (react_evolves (block_timestamp e) r).
Qed.

Lemma reentrant_transact_reachable t r e c s :
  reachable t s → t <= block_timestamp e →
  reachable (block_timestamp e)
    (Reentrant.transact (Reentrant.call_value (block_timestamp e) r) e c s).
Proof.
  intros Hreach Hle. eapply reachable_evolves; [exact Hreach|].
  by apply reentrant_transact_evolves.
Qed.

(** ** After the deadline the ledger only shrinks *)

Lemma execute_after_deadline e c s s' :
  execute c e s = Ok s' → deadline s <= block_timestamp e →
  totalDonations s' <= totalDonations s ∧
  ∀ b, donationOf s' b <= donationOf s b.
Proof.
  intros Hrun Hclosed. apply execute_effect in Hrun.
  destruct c; try done.
  - destruct Hrun as (Hopen & _). lia.
  - by destruct Hrun as (_ & ->).
  - by destruct Hrun as (m & _ & _ & _ & _ & _ & ->).
  - by destruct Hrun as (m & _ & _ & _ & ->).
  - by destruct Hrun as (m & _ & _ & _ & _ & _ & ->).
  - by destruct Hrun as (_ & _ & ->).
  - by destruct Hrun as (_ & _ & ->).
  - destruct Hrun as (_ & _ & _ & _ & _ & ->). simpl. split; [lia|].
    intros b. unfold donationOf. simpl.
    destruct (decide (msg_sender e = b)) as [->|Hne].
    + rewrite lookup_insert_eq. simpl. lia.
    + by rewrite lookup_insert_ne.
  - by destruct Hrun as (_ & ->).
Qed.

Lemma evolves_after_deadline t s t' s' :
  evolves t s t' s' → deadline s <= t →
  totalDonations s' <= totalDonations s ∧
  ∀ b, donationOf s' b <= donationOf s b.
Proof.
  induction 1 as [|t' s' e c Hev IH Hle]; intros Hclosed; [done|].
  destruct (IH Hclosed) as [Htot Hdon].
  pose proof (evolves_parameters _ _ _ _ Hev) as (_ & _ & Hdl).
  assert (Htime : t <= t').
  { clear -Hev. induction Hev; lia. }
  unfold transact. destruct (execute c e s') as [s2|err] eqn:Hrun; [|done].
  apply execute_after_deadline in Hrun as [Htot2 Hdon2]; [|lia].
  split; [lia|]. intros b. specialize (Hdon b). specialize (Hdon2 b). lia.
Qed.

(** ** C6: refunds *)

(** C6, as stated, fails: after the missed deadline the owner has withdrawn
    what the contract held. The time is after the deadline, the goal is
    missed and X's balance is 4, yet X's [refund] does not succeed, even
    though X accepts payments: the contract holds nothing and the call
    reverts with [TransferFailed]. *)
Lemma refund_after_withdraw :
  reachable 90000 drained ∧
  deadline drained <= block_timestamp (at_time donor_X 0 90001) ∧
  totalDonations drained < fundraisingGoal drained ∧
  donationOf drained donor_X = 4 ∧
  refund (at_time donor_X 0 90001) drained = Revert TransferFailed ∧
  Reentrant.refund (Reentrant.call_value 90001 Accept)
    (at_time donor_X 0 90001) drained = Revert TransferFailed.
Proof.
  split.
  { unfold drained. next_call 1200. apply underfunded_reachable. }
  split; [vm_compute; discriminate|]. split; [reflexivity|].
  split; [reflexivity|]. split; reflexivity.
Qed.

(** C6, amended. In every reachable state, [refund] of a donor with balance
    [amount], whose address answers a payment with the code [r]:
    - fails with [RefundNotAvailable] unless the time is at or after
      [deadline] and [totalDonations < fundraisingGoal];
    - otherwise fails with [NoDonationToRefund] when [amount] is zero;
    - otherwise zeroes the donor's balance, lowers [totalDonations] by
      exactly [amount] and pays [amount] to the donor; when the contract
      holds less than [amount] or the donor's code refuses the payment it
      fails with [TransferFailed];
    - otherwise it returns, in the storage the donor's code leaves: the
      donor's balance is zero, [totalDonations] is lower by at least
      [amount], and no balance is higher than before;
    - when the donor's code takes the payment without calling the contract,
      the result is exact: [totalDonations] is lower by [amount], the
      contract holds [amount] less, and the other balances, the milestones
      and the vote records are untouched;
    - whenever it fails the storage is exactly what it was before the call;
    - it returns only when the refund is available, [amount] is positive,
      the contract holds [amount] and the donor's code accepts. *)
Theorem reentrant_refund_spec t s e r :
  reachable t s →
  let now := block_timestamp e in
  let amount := donationOf s (msg_sender e) in
  let available :=
    deadline s <= now ∧ totalDonations s < fundraisingGoal s in
  let paid :=
    set_balance
      (set_ledger s (<[msg_sender e := 0]> (donations s))
         (totalDonations s - amount))
      (balance s - amount) in
  let result := Reentrant.refund (Reentrant.call_value now r) e s in
  (¬ available → result = Revert RefundNotAvailable) ∧
  (available → amount = 0 → result = Revert NoDonationToRefund) ∧
  (available → amount ≠ 0 →
   balance s < amount ∨ Reentrant.react now r paid = None →
   result = Revert TransferFailed) ∧
  (available → amount ≠ 0 → amount <= balance s →
   ∀ s', Reentrant.react now r paid = Some s' →
     result = Ok s' ∧
     donationOf s' (msg_sender e) = 0 ∧
     totalDonations s' + amount <= totalDonations s ∧
     (∀ b, donationOf s' b <= donationOf s b)) ∧
  (available → amount ≠ 0 → amount <= balance s → r = Accept →
   result = Ok paid ∧
   donationOf paid (msg_sender e) = 0 ∧
   amount <= totalDonations s ∧
   totalDonations paid = totalDonations s - amount ∧
   balance paid = balance s - amount ∧
   (∀ b, b ≠ msg_sender e → donationOf paid b = donationOf s b) ∧
   milestones paid = milestones s ∧ hasVoted paid = hasVoted s) ∧
  (∀ err, result = Revert err →
   Reentrant.transact (Reentrant.call_value now r) e CRefund s = s) ∧
  (∀ s', result = Ok s' →
   available ∧ amount ≠ 0 ∧ amount <= balance s ∧
   Reentrant.react now r paid = Some s').
Proof.
  intros Hreach now amount available paid result.
  pose proof (reachable_invariant t s Hreach) as [[Hsum _] _ _ _].
  pose proof (donation_le_total s (msg_sender e) Hsum) as Hle.
  fold amount in Hle.
  assert (Hgate : available →
            negb ((deadline s <=? block_timestamp e)
                  && (totalDonations s <? fundraisingGoal s)) = false).
  { intros [Ht Hg]. apply negb_false_iff, andb_true_iff.
    split; [by apply N.leb_le | by apply N.ltb_lt]. }
  assert (Hsub : checked_sub (totalDonations s) amount
                 = Ok (totalDonations s - amount)).
  { unfold checked_sub. by apply N.leb_le in Hle as ->. }
  assert (Hbody : available → amount ≠ 0 →
            result = match Reentrant.call_value now r
                             (set_ledger s (<[msg_sender e := 0]> (donations s))
                                (totalDonations s - amount)) amount with
                     | Some s2 => Ok s2
                     | None => Revert TransferFailed
                     end).
  { intros Hav Hpos. unfold result, Reentrant.refund. rewrite (Hgate Hav).
    cbn [bind revert_if]. fold amount.
    apply N.eqb_neq in Hpos as ->. cbn [bind revert_if]. rewrite Hsub.
    done. }
  assert (Hpaid : amount <= balance s →
            Reentrant.call_value now r
              (set_ledger s (<[msg_sender e := 0]> (donations s))
                 (totalDonations s - amount)) amount
            = Reentrant.react now r paid).
  { intros Hheld. unfold Reentrant.call_value. simpl.
    by apply N.leb_le in Hheld as ->. }
  assert (Hzero : donationOf paid (msg_sender e) = 0).
  { unfold donationOf, paid. simpl. by rewrite lookup_insert_eq. }
  split_and!.
  - intros Hnot. unfold result, Reentrant.refund.
    destruct (negb ((deadline s <=? block_timestamp e)
                    && (totalDonations s <? fundraisingGoal s))) eqn:Hg;
      [done|].
    destruct Hnot. arith. done.
  - intros Hav Hnone. unfold result, Reentrant.refund. rewrite (Hgate Hav).
    cbn [bind revert_if]. fold amount. by rewrite Hnone.
  - intros Hav Hpos Hfail. rewrite (Hbody Hav Hpos).
    destruct Hfail as [Hshort | Hrefused].
    + unfold Reentrant.call_value. simpl.
      by apply N.leb_gt in Hshort as ->.
    + destruct (N.le_gt_cases amount (balance s)) as [Hheld | Hshort].
      * by rewrite (Hpaid Hheld), Hrefused.
      * unfold Reentrant.call_value. simpl.
        by apply N.leb_gt in Hshort as ->.
  - intros Hav Hpos Hheld s' Hr. rewrite (Hbody Hav Hpos), (Hpaid Hheld), Hr.
    split; [done|].
    apply react_evolves in Hr.
    destruct Hav as [Hclosed _].
    destruct (evolves_after_deadline _ _ _ _ Hr Hclosed) as [Htot Hdon].
    split_and!.
    + specialize (Hdon (msg_sender e)). rewrite Hzero in Hdon. lia.
    + simpl in Htot. lia.
    + intros b. specialize (Hdon b).
      assert (donationOf paid b <= donationOf s b); [|lia].
      unfold donationOf, paid. simpl.
      destruct (decide (msg_sender e = b)) as [->|Hne].
      * rewrite lookup_insert_eq. simpl. lia.
      * by rewrite lookup_insert_ne.
  - intros Hav Hpos Hheld ->. rewrite (Hbody Hav Hpos), (Hpaid Hheld).
    split_and!; try done.
    intros b Hb. unfold donationOf, paid. simpl.
    by rewrite lookup_insert_ne by congruence.
  - intros err Hfail. unfold Reentrant.transact. simpl. unfold nonpayable.
    destruct (negb (msg_value e =? 0)); simpl; [done|].
    fold now. fold result. by rewrite Hfail.
  - intros s' Hok. unfold result in Hok.
    rewrite reentrant_refund_factors in Hok.
    destruct (refund (accepting e) s) as [mid|err] eqn:Hflat; [|done].
    apply refund_Ok in Hflat as (Ht & Hg & Hpos & _ & Hheld & _ & ->).
    match type of Hok with
    | match ?x with _ => _ end = _ => destruct x as [s2|] eqn:Hr; [|done]
    end.
    injection Hok as <-.
    split_and!;
      [split; [exact Ht | exact Hg] | exact Hpos | exact Hheld | exact Hr].
Qed.

Lemma reentrant_refund_spec_witness :
  let s := underfunded in
  let e := at_time donor_X 0 90000 in
  let r := refunding_too in
  let now := block_timestamp e in
  let amount := donationOf s (msg_sender e) in
  let available :=
    deadline s <= now ∧ totalDonations s < fundraisingGoal s in
  let paid :=
    set_balance
      (set_ledger s (<[msg_sender e := 0]> (donations s))
         (totalDonations s - amount))
      (balance s - amount) in
  let result := Reentrant.refund (Reentrant.call_value now r) e s in
  reachable 1200 s ∧
  (¬ available → result = Revert RefundNotAvailable) ∧
  (available → amount = 0 → result = Revert NoDonationToRefund) ∧
  (available → amount ≠ 0 →
   balance s < amount ∨ Reentrant.react now r paid = None →
   result = Revert TransferFailed) ∧
  (available → amount ≠ 0 → amount <= balance s →
   ∀ s', Reentrant.react now r paid = Some s' →
     result = Ok s' ∧
     donationOf s' (msg_sender e) = 0 ∧
     totalDonations s' + amount <= totalDonations s ∧
     (∀ b, donationOf s' b <= donationOf s b)) ∧
  (available → amount ≠ 0 → amount <= balance s → r = Accept →
   result = Ok paid ∧
   donationOf paid (msg_sender e) = 0 ∧
   amount <= totalDonations s ∧
   totalDonations paid = totalDonations s - amount ∧
   balance paid = balance s - amount ∧
   (∀ b, b ≠ msg_sender e → donationOf paid b = donationOf s b) ∧
   milestones paid = milestones s ∧ hasVoted paid = hasVoted s) ∧
  (∀ err, result = Revert err →
   Reentrant.transact (Reentrant.call_value now r) e CRefund s = s) ∧
  (∀ s', result = Ok s' →
   available ∧ amount ≠ 0 ∧ amount <= balance s ∧
   Reentrant.react now r paid = Some s').
Proof.
  intros s e r now amount available paid result.
  split; [apply underfunded_reachable|].
  apply (reentrant_refund_spec 1200 s e r). apply underfunded_reachable.
Defined.

(** ** C8: withdrawal by the owner *)

(** C8, as stated, fails: the goal is met and the contract holds 10, but the
    owner's [withdraw] does not succeed when the owner's address refuses
    the payment; it reverts with [TransferFailed]. *)
Lemma withdraw_refused :
  reachable 1200 funded ∧
  msg_sender (refusing the_owner 1300) = owner funded ∧
  fundraisingGoal funded <= totalDonations funded ∧
  balance funded ≠ 0 ∧
  withdraw (refusing the_owner 1300) funded = Revert TransferFailed.
Proof.
  split; [apply funded_reachable|]. split; [reflexivity|].
  split; [vm_compute; discriminate|]. split; [vm_compute; discriminate|].
  reflexivity.
Qed.

(** C8, amended. [withdraw] called by the owner, whose address answers a
    payment with the code [r]:
    - fails with [WithdrawalNotAvailable] unless the time is at or after
      [deadline] or [totalDonations >= fundraisingGoal];
    - otherwise fails with [NoFundsToWithdraw] when the contract holds
      nothing;
    - otherwise pays the whole balance held by the contract to the owner
      (whatever milestones are pending), so that the owner's code runs with
      the contract holding zero, and fails with [TransferFailed] when that
      code refuses the payment;
    - otherwise returns, in the storage the owner's code leaves; when that
      code takes the payment without calling the contract, the held balance
      is zero and nothing else has changed;
    - returns only in that last case. *)
Theorem reentrant_withdraw_spec s e r :
  msg_sender e = owner s →
  let now := block_timestamp e in
  let allowed :=
    deadline s <= now ∨ fundraisingGoal s <= totalDonations s in
  let emptied := set_balance s 0 in
  let result := Reentrant.withdraw (Reentrant.call_value now r) e s in
  (¬ allowed → result = Revert WithdrawalNotAvailable) ∧
  (allowed → balance s = 0 → result = Revert NoFundsToWithdraw) ∧
  Reentrant.call_value now r s (balance s) = Reentrant.react now r emptied ∧
  (allowed → balance s ≠ 0 → Reentrant.react now r emptied = None →
   result = Revert TransferFailed) ∧
  (allowed → balance s ≠ 0 →
   ∀ s', Reentrant.react now r emptied = Some s' → result = Ok s') ∧
  (allowed → balance s ≠ 0 → r = Accept →
   result = Ok emptied ∧ balance emptied = 0) ∧
  (∀ s', result = Ok s' →
   allowed ∧ balance s ≠ 0 ∧ Reentrant.react now r emptied = Some s').
Proof.
  intros Hown now allowed emptied result.
  assert (Hgate : allowed →
            negb ((deadline s <=? block_timestamp e)
                  || (fundraisingGoal s <=? totalDonations s)) = false).
  { intros Hal. apply negb_false_iff, orb_true_iff.
    destruct Hal as [Ht|Hg]; [left | right]; by apply N.leb_le. }
  assert (Hpaid : Reentrant.call_value now r s (balance s)
                  = Reentrant.react now r emptied).
  { unfold Reentrant.call_value, emptied. by rewrite N.leb_refl, N.sub_diag. }
  assert (Hbody : allowed → balance s ≠ 0 →
            result = match Reentrant.react now r emptied with
                     | Some s1 => Ok s1
                     | None => Revert TransferFailed
                     end).
  { intros Hal Hpos. unfold result, Reentrant.withdraw, onlyOwner.
    rewrite Hown, N.eqb_refl. cbn [negb bind revert_if].
    rewrite (Hgate Hal). cbn [bind revert_if].
    apply N.eqb_neq in Hpos as ->. cbn [bind revert_if].
    fold now. by rewrite Hpaid. }
  split_and!.
  - intros Hnot. unfold result, Reentrant.withdraw, onlyOwner.
    rewrite Hown, N.eqb_refl. cbn [negb bind revert_if].
    destruct (negb ((deadline s <=? block_timestamp e)
                    || (fundraisingGoal s <=? totalDonations s))) eqn:Hg;
      [done|].
    destruct Hnot. apply negb_false_iff, orb_true_iff in Hg.
    destruct Hg as [Ht|Hg]; [left | right]; by apply N.leb_le.
  - intros Hal Hzero. unfold result, Reentrant.withdraw, onlyOwner.
    rewrite Hown, N.eqb_refl. cbn [negb bind revert_if].
    rewrite (Hgate Hal). cbn [bind revert_if]. by rewrite Hzero.
  - exact Hpaid.
  - intros Hal Hpos Hrefused. by rewrite (Hbody Hal Hpos), Hrefused.
  - intros Hal Hpos s' Hr. by rewrite (Hbody Hal Hpos), Hr.
  - intros Hal Hpos ->. by rewrite (Hbody Hal Hpos).
  - intros s' Hok. unfold result in Hok.
    rewrite reentrant_withdraw_factors in Hok.
    destruct (withdraw (accepting e) s) as [mid|err] eqn:Hflat; [|done].
    apply withdraw_Ok in Hflat as (_ & Hal & Hpos & _ & ->).
    match type of Hok with
    | match ?x with _ => _ end = _ => destruct x as [s2|] eqn:Hr; [|done]
    end.
    injection Hok as <-. split_and!; [exact Hal | exact Hpos | exact Hr].
Qed.

Lemma reentrant_withdraw_spec_witness :
  let s := funded in
  let e := at_time the_owner 0 1300 in
  let r := donating_back in
  let now := block_timestamp e in
  let allowed :=
    deadline s <= now ∨ fundraisingGoal s <= totalDonations s in
  let emptied := set_balance s 0 in
  let result := Reentrant.withdraw (Reentrant.call_value now r) e s in
  msg_sender e = owner s ∧
  (¬ allowed → result = Revert WithdrawalNotAvailable) ∧
  (allowed → balance s = 0 → result = Revert NoFundsToWithdraw) ∧
  Reentrant.call_value now r s (balance s) = Reentrant.react now r emptied ∧
  (allowed → balance s ≠ 0 → Reentrant.react now r emptied = None →
   result = Revert TransferFailed) ∧
  (allowed → balance s ≠ 0 →
   ∀ s', Reentrant.react now r emptied = Some s' → result = Ok s') ∧
  (allowed → balance s ≠ 0 → r = Accept →
   result = Ok emptied ∧ balance emptied = 0) ∧
  (∀ s', result = Ok s' →
   allowed ∧ balance s ≠ 0 ∧ Reentrant.react now r emptied = Some s').
Proof.
  intros s e r now allowed emptied result. split; [reflexivity|].
  apply (reentrant_withdraw_spec s e r). reflexivity.
Defined.

(** ** C10: what a withdrawal leaves alone *)

(** C10, as stated, fails: the owner is a contract whose [receive] donates 1
    back. Its [withdraw] succeeds, and afterwards the owner's recorded
    balance is 1 instead of 0, [totalDonations] is 11 instead of 10, and the
    contract holds 1. *)
Lemma withdraw_callback_donates :
  reachable 1200 funded ∧
  donationOf funded the_owner = 0 ∧ totalDonations funded = 10 ∧
  ∃ s',
    Reentrant.withdraw (Reentrant.call_value 1300 donating_back)
      (at_time the_owner 0 1300) funded = Ok s' ∧
    donationOf s' the_owner = 1 ∧ totalDonations s' = 11 ∧ balance s' = 1 ∧
    donations s' ≠ donations funded.
Proof.
  split; [apply funded_reachable|]. split; [reflexivity|].
  split; [reflexivity|].
  eexists. split; [reflexivity|]. split; [reflexivity|].
  split; [reflexivity|]. split; [reflexivity|].
  intros Heq.
  assert (Hread : donations funded !! the_owner = Some 1).
  { rewrite <- Heq. reflexivity. }
  vm_compute in Hread. discriminate.
Qed.

(** C10, amended. A [withdraw] that returns has itself changed nothing but
    the ether held by the contract: the owner's code receives control in a
    storage that is the one before the call with the held balance at zero,
    and the storage after the call is what that code leaves. When the
    owner's code takes the payment without calling the contract,
    [donations], [totalDonations], the milestones with their tallies and
    flags, the vote records, every donor's recorded balance and the progress
    towards the goal are the same before and after, and the held balance is
    zero. Whatever the owner's code does, the owner, the goal and the
    deadline are the same, every milestone is the same or further on in its
    life cycle, and no vote record is cleared. *)
Theorem reentrant_withdraw_frame s e r s' :
  Reentrant.withdraw (Reentrant.call_value (block_timestamp e) r) e s = Ok s' →
  let now := block_timestamp e in
  let emptied := set_balance s 0 in
  balance s ≠ 0 ∧
  Reentrant.react now r emptied = Some s' ∧
  (r = Accept →
   s' = emptied ∧
   donations s' = donations s ∧
   totalDonations s' = totalDonations s ∧
   milestones s' = milestones s ∧
   hasVoted s' = hasVoted s ∧
   updates s' = updates s ∧
   campaignActive s' = campaignActive s ∧
   (∀ a, donationOf s' a = donationOf s a) ∧
   (∀ i a, votedOn s' i a = votedOn s i a) ∧
   progressPercentage s' = progressPercentage s ∧
   balance s' = 0) ∧
  (owner s' = owner s ∧ fundraisingGoal s' = fundraisingGoal s ∧
   deadline s' = deadline s) ∧
  (∀ i m, milestones s !! i = Some m →
     ∃ m', milestones s' !! i = Some m' ∧ milestone_le m m') ∧
  (∀ i a, votedOn s i a = true → votedOn s' i a = true).
Proof.
  intros Hok now emptied.
  rewrite reentrant_withdraw_factors in Hok.
  destruct (withdraw (accepting e) s) as [mid|err] eqn:Hflat; [|done].
  apply withdraw_Ok in Hflat as (_ & _ & Hpos & _ & ->).
  fold emptied now in Hok.
  destruct (Reentrant.react now r emptied) as [s2|] eqn:Hr; [|done].
  injection Hok as <-.
  pose proof (react_evolves now r emptied s2 Hr) as Hev.
  split; [done|]. split; [done|]. split; [|split; [|split]].
  - intros ->. simpl in Hr. injection Hr as <-. split_and!; done.
  - by apply evolves_parameters in Hev.
  - intros i m Hi. by apply (evolves_milestone_le _ _ _ _ i m Hev).
  - intros i a Hv. by apply (evolves_votedOn _ _ _ _ i a Hev).
Qed.

Lemma reentrant_withdraw_frame_witness :
  let s := funded in
  let e := at_time the_owner 0 1300 in
  let r := donating_back in
  let s' := transact (at_time the_owner 1 1300) CDonate (set_balance funded 0) in
  let now := block_timestamp e in
  let emptied := set_balance s 0 in
  Reentrant.withdraw (Reentrant.call_value (block_timestamp e) r) e s = Ok s' ∧
  balance s ≠ 0 ∧
  Reentrant.react now r emptied = Some s' ∧
  (r = Accept →
   s' = emptied ∧
   donations s' = donations s ∧
   totalDonations s' = totalDonations s ∧
   milestones s' = milestones s ∧
   hasVoted s' = hasVoted s ∧
   updates s' = updates s ∧
   campaignActive s' = campaignActive s ∧
   (∀ a, donationOf s' a = donationOf s a) ∧
   (∀ i a, votedOn s' i a = votedOn s i a) ∧
   progressPercentage s' = progressPercentage s ∧
   balance s' = 0) ∧
  (owner s' = owner s ∧ fundraisingGoal s' = fundraisingGoal s ∧
   deadline s' = deadline s) ∧
  (∀ i m, milestones s !! i = Some m →
     ∃ m', milestones s' !! i = Some m' ∧ milestone_le m m') ∧
  (∀ i a, votedOn s i a = true → votedOn s' i a = true).
Proof.
  intros s e r s' now emptied. split; [reflexivity|].
  apply (reentrant_withdraw_frame s e r s'). reflexivity.
Defined.

(** ** Releasing the funds of a milestone *)

(** X7. [releaseMilestoneFunds(i)], with an owner whose address answers a
    payment with the code [r], checks, in this order, and fails with
    [NotOwner] for a caller other than the owner, [InvalidMilestone] for an
    index out of range, [MilestoneNotApproved] unless [approved] is set,
    [FundsAlreadyReleased] when the funds were released, and
    [InsufficientContractBalance] when the contract holds less than
    [fundAmount]. Otherwise it sets [fundsReleased] on milestone [i] and
    pays exactly [fundAmount] to the owner; it fails with [TransferFailed]
    when the owner's code refuses the payment, and otherwise returns in the
    storage that code leaves, in which the milestone is still marked as
    released (a callback cannot release it a second time). When the owner's
    code only takes the payment, the held balance is lower by [fundAmount]
    and the ledger, the vote records and the other milestones are as
    before. *)
Theorem reentrant_release_spec i e s r :
  let now := block_timestamp e in
  let result :=
    Reentrant.releaseMilestoneFunds (Reentrant.call_value now r) i e s in
  (msg_sender e ≠ owner s → result = Revert NotOwner) ∧
  (msg_sender e = owner s → milestones s !! N.to_nat i = None →
   result = Revert InvalidMilestone) ∧
  (∀ m, msg_sender e = owner s → milestones s !! N.to_nat i = Some m →
     let marked :=
       set_balance (store_milestone s i (set_fundsReleased m true))
         (balance s - fundAmount m) in
     (approved m = false → result = Revert MilestoneNotApproved) ∧
     (approved m = true → fundsReleased m = true →
      result = Revert FundsAlreadyReleased) ∧
     (approved m = true → fundsReleased m = false →
      balance s < fundAmount m →
      result = Revert InsufficientContractBalance) ∧
     (approved m = true → fundsReleased m = false →
      fundAmount m <= balance s → Reentrant.react now r marked = None →
      result = Revert TransferFailed) ∧
     (approved m = true → fundsReleased m = false →
      fundAmount m <= balance s →
      ∀ s', Reentrant.react now r marked = Some s' →
        result = Ok s' ∧
        ∃ m', milestones s' !! N.to_nat i = Some m' ∧
          fundsReleased m' = true ∧ fundAmount m' = fundAmount m) ∧
     (approved m = true → fundsReleased m = false →
      fundAmount m <= balance s → r = Accept →
      result = Ok marked ∧
      milestones marked !! N.to_nat i = Some (set_fundsReleased m true) ∧
      balance marked = balance s - fundAmount m ∧
      donations marked = donations s ∧
      totalDonations marked = totalDonations s ∧
      hasVoted marked = hasVoted s ∧
      (∀ j, j ≠ N.to_nat i → milestones marked !! j = milestones s !! j))).
Proof.
  intros now result. unfold result.
  rewrite reentrant_release_factors.
  destruct (releaseMilestoneFunds_single i (accepting e) s)
    as (Hnot & Hrange & Hrest).
  change (msg_sender (accepting e)) with (msg_sender e) in *.
  split_and!.
  - intros Hne. by rewrite (Hnot Hne).
  - intros Hown Hnone. by rewrite (Hrange Hown Hnone).
  - intros m Hown Hi.
    set (marked := set_balance (store_milestone s i (set_fundsReleased m true))
                     (balance s - fundAmount m)).
    destruct (Hrest m Hown Hi) as (H1 & H2 & H3 & _ & H5).
    assert (Hflat : approved m = true → fundsReleased m = false →
              fundAmount m <= balance s →
              releaseMilestoneFunds i (accepting e) s = Ok marked).
    { intros Ha Hf Hheld.
      destruct (H5 Ha Hf Hheld eq_refl) as (s1 & Hok & _).
      rewrite Hok. f_equal.
      apply releaseMilestoneFunds_Ok in Hok as (m0 & Hi0 & _ & _ & _ & _ & _ & ->).
      assert (m0 = m) as -> by congruence. done. }
    assert (Hlen : (N.to_nat i < length (milestones s))%nat)
      by (by eapply lookup_lt_Some).
    assert (Hmarked : milestones marked !! N.to_nat i
                      = Some (set_fundsReleased m true)).
    { unfold marked. simpl. by apply list_lookup_insert_eq. }
    split_and!.
    + intros Ha. by rewrite (H1 Ha).
    + intros Ha Hf. by rewrite (H2 Ha Hf).
    + intros Ha Hf Hshort. by rewrite (H3 Ha Hf Hshort).
    + intros Ha Hf Hheld Hrefused. by rewrite (Hflat Ha Hf Hheld), Hrefused.
    + intros Ha Hf Hheld s' Hr. rewrite (Hflat Ha Hf Hheld), Hr.
      split; [done|].
      apply react_evolves in Hr.
      destruct (evolves_milestone_le _ _ _ _ _ _ Hr Hmarked)
        as (m' & Hi' & Hle).
      destruct Hle as (_ & Hamount & _ & Hkeep & _).
      exists m'. split_and!; [done | by apply Hkeep | done].
    + intros Ha Hf Hheld ->. rewrite (Hflat Ha Hf Hheld). simpl.
      split_and!; try done.
      intros j Hj. unfold marked. simpl. by rewrite list_lookup_insert_ne.
Qed.

Lemma reentrant_release_spec_witness :
  let i := 0 in
  let e := at_time the_owner 0 174900 in
  let s := finalized in
  let r := Callback the_owner 0 Accept (CReleaseMilestoneFunds 0) Accept in
  let m := mkMilestone "well" 3 174800 6 4 true false false in
  let now := block_timestamp e in
  let result :=
    Reentrant.releaseMilestoneFunds (Reentrant.call_value now r) i e s in
  let marked :=
    set_balance (store_milestone s i (set_fundsReleased m true))
      (balance s - fundAmount m) in
  msg_sender e = owner s ∧ milestones s !! N.to_nat i = Some m ∧
  Reentrant.react now r marked = Some marked ∧
  result = Ok marked ∧
  ∃ m', milestones marked !! N.to_nat i = Some m' ∧
    fundsReleased m' = true ∧ fundAmount m' = fundAmount m.
Proof.
  intros i e s r m now result marked.
  split; [reflexivity|]. split; [reflexivity|]. split; [reflexivity|].
  destruct (reentrant_release_spec i e s r) as (_ & _ & Hrest).
  destruct (Hrest m eq_refl eq_refl) as (_ & _ & _ & _ & Hback & _).
  apply (Hback eq_refl eq_refl); [vm_compute; discriminate | reflexivity].
Defined.

(** ** Callbacks reach no new states *)

(** X13. A transaction whose payments call back into the contract, to any
    depth, ends in a state that calls without callbacks can reach as well:
    from a reachable state it leads to a reachable state, in which the
    ledger adds up. The absence of a reentrancy guard puts no invariant of
    the reachable states at risk. *)
Theorem callbacks_stay_reachable t s e c r :
  reachable t s → t <= block_timestamp e →
  let s' :=
    Reentrant.transact (Reentrant.call_value (block_timestamp e) r) e c s in
  reachable (block_timestamp e) s' ∧
  evolves t s (block_timestamp e) s' ∧
  sum_donations s' = totalDonations s'.
Proof.
  intros Hreach Hle s'.
  assert (Hreach' : reachable (block_timestamp e) s')
    by (by apply (reentrant_transact_reachable t)).
  split_and!; [done | by apply reentrant_transact_evolves |].
  by destruct (reachable_invariant _ _ Hreach') as [[Hsum _] _ _ _].
Qed.

Lemma callbacks_stay_reachable_witness :
  let s := funded in
  let e := at_time the_owner 0 1300 in
  let s' :=
    Reentrant.transact (Reentrant.call_value (block_timestamp e) donating_back)
      e CWithdraw s in
  reachable 1200 s ∧ 1200 <= block_timestamp e ∧
  reachable (block_timestamp e) s' ∧
  evolves 1200 s (block_timestamp e) s' ∧
  sum_donations s' = totalDonations s' ∧ totalDonations s' = 11.
Proof.
  intros s e s'. split; [apply funded_reachable|].
  split; [vm_compute; discriminate|].
  destruct (callbacks_stay_reachable 1200 s e CWithdraw donating_back)
    as (H1 & H2 & H3); [apply funded_reachable | vm_compute; discriminate |].
  split_and!; [exact H1 | exact H2 | exact H3 | reflexivity].
Defined.

(** ** After the deadline *)

(** X14. Once the deadline has passed, no call adds to the ledger: in every
    later state [totalDonations] and every donor's balance are at most what
    they were, and [donate] fails with [FundraisingClosed]. A campaign that
    has missed its goal at the deadline therefore stays open for refunds:
    the goal test of [refund] never fails again. *)
Theorem ledger_after_deadline t s t' s' :
  evolves t s t' s' → deadline s <= t →
  totalDonations s' <= totalDonations s ∧
  (∀ b, donationOf s' b <= donationOf s b) ∧
  (∀ e, t' <= block_timestamp e → donate e s' = Revert FundraisingClosed) ∧
  (totalDonations s < fundraisingGoal s →
   ∀ e, t' <= block_timestamp e →
     ∀ r, Reentrant.refund (Reentrant.call_value (block_timestamp e) r) e s'
          ≠ Revert RefundNotAvailable).
Proof.
  intros Hev Hclosed.
  destruct (evolves_after_deadline _ _ _ _ Hev Hclosed) as [Htot Hdon].
  pose proof (evolves_parameters _ _ _ _ Hev) as (_ & Hgoal & Hdl).
  assert (Htime : t <= t') by (clear -Hev; induction Hev; lia).
  split_and!; [done | done | |].
  - intros e Hle. unfold donate.
    assert ((deadline s' <=? block_timestamp e) = true) as ->
      by (apply N.leb_le; lia).
    done.
  - intros Hmissed e Hle r. unfold Reentrant.refund.
    assert ((deadline s' <=? block_timestamp e) = true) as ->
      by (apply N.leb_le; lia).
    assert ((totalDonations s' <? fundraisingGoal s') = true) as ->
      by (apply N.ltb_lt; lia).
    cbn [andb negb bind revert_if].
    destruct (donationOf s' (msg_sender e) =? 0); cbn [bind revert_if];
      [done|].
    unfold checked_sub.
    destruct (donationOf s' (msg_sender e) <=? totalDonations s');
      cbn [bind]; [|done].
    by destruct (Reentrant.call_value _ _ _ _).
Qed.

Lemma ledger_after_deadline_witness :
  let s := underfunded in
  let s' := transact (at_time donor_X 0 90001) CRefund underfunded in
  evolves 90000 s 90001 s' ∧ deadline s <= 90000 ∧
  totalDonations s' <= totalDonations s ∧
  (∀ b, donationOf s' b <= donationOf s b) ∧
  (∀ e, 90001 <= block_timestamp e → donate e s' = Revert FundraisingClosed) ∧
  (totalDonations s < fundraisingGoal s →
   ∀ e, 90001 <= block_timestamp e →
     ∀ r, Reentrant.refund (Reentrant.call_value (block_timestamp e) r) e s'
          ≠ Revert RefundNotAvailable).
Proof.
  intros s s'.
  assert (Hev : evolves 90000 s 90001 s').
  { unfold s'. advance 90000. apply evolves_here. }
  split; [exact Hev|]. split; [vm_compute; discriminate|].
  apply (ledger_after_deadline 90000 s 90001 s');
    [exact Hev | vm_compute; discriminate].
Defined.

